(** * Phonle: a shallow embedding of [game.js] and its verified properties

    The game is a word-guessing puzzle over phonemes.  This development
    embeds the core of [game.js] (dictionary loading, guess evaluation, the
    keyboard status map and the round state machine) and proves the
    properties stated about it.

    Conventions of the embedding:
    - JavaScript strings are [string]s; the operations used by the program
      ([split], [startsWith], [replace(/\d/g, '')], [slice(0, -1)],
      [toUpperCase] on a keyboard letter) act character by character.
    - The object [dictionary] and the object [phonemeStatus] are used as maps
      from words (resp. phoneme symbols) to values and are [gmap]s over their
      own string keys; the keys the program looks up are dictionary words and
      guesses made of the letters A-Z, and a dictionary word is taken to
      differ from the reserved property name [__proto__].
    - [frequencySet] is a [gset]; the local [phonemeSet], whose iteration
      order is observed by [Array.from], is an insertion-ordered list
      without duplicates.
    - The global variables form the record [state]; every function of the
      program is a function on [state].  A function that can raise a
      JavaScript exception returns an [outcome].
    - [undefined] and [null] are [None] at the type of the value they
      replace. *)

From Stdlib Require Import Ascii.
From stdpp Require Import base strings list gmap sorting.

Local Open Scope char_scope.
Local Open Scope stdpp_scope.

(** ** String primitives *)

Module Text.

(** [if (s)] on a string: the empty string is falsy. *)
Definition truthy (s : string) : bool :=
  match s with
  | "" => false
  | String _ _ => true
  end.

(** [s.startsWith(p)] *)
Fixpoint startsWith (p s : string) : bool :=
  match p, s with
  | "", _ => true
  | String a p', String b s' => if decide (a = b) then startsWith p' s' else false
  | String _ _, "" => false
  end.

(** The class [\d] of a regular expression without the unicode flag. *)
Definition isDigit (c : ascii) : bool :=
  match Ascii.is_nat c with
  | Some _ => true
  | None => false
  end.

(** [s.replace(/\d/g, '')] *)
Fixpoint removeDigits (s : string) : string :=
  match s with
  | "" => ""
  | String c s' => if isDigit c then removeDigits s' else String c (removeDigits s')
  end.

(** Puts a character in front of the first piece of a split. *)
Definition consHead (c : ascii) (pieces : list string) : list string :=
  match pieces with
  | p :: ps => String c p :: ps
  | [] => [String c ""]
  end.

(** [s.split(sep)] for a non-empty separator.  The text is scanned from
    the left; where [sep] matches, the current piece is closed and the
    scan resumes behind the match: [skip] counts the characters of a
    match that are still to be passed over. *)
Fixpoint splitFrom (sep : string) (skip : nat) (s : string) : list string :=
  match s with
  | "" => [""]
  | String c s' =>
      match skip with
      | S k => splitFrom sep k s'
      | 0 =>
          if startsWith sep s
          then "" :: splitFrom sep (String.length sep - 1) s'
          else consHead c (splitFrom sep 0 s')
      end
  end.

(** [s.split('')] cuts the text into its characters. *)
Fixpoint chars (s : string) : list string :=
  match s with
  | "" => []
  | String c s' => String c "" :: chars s'
  end.

Definition split (sep s : string) : list string :=
  match sep with
  | "" => chars s
  | String _ _ => splitFrom sep 0 s
  end.

(** [s.slice(0, -1)] *)
Fixpoint dropLast (s : string) : string :=
  match s with
  | "" => ""
  | String c "" => ""
  | String c s' => String c (dropLast s')
  end.

Definition isLower (c : ascii) : bool :=
  bool_decide (97 ≤ nat_of_ascii c ≤ 122).
Definition isUpper (c : ascii) : bool :=
  bool_decide (65 ≤ nat_of_ascii c ≤ 90).

(** [c.toUpperCase()] on the characters of the keyboard. *)
Definition upperChar (c : ascii) : ascii :=
  if isLower c then ascii_of_nat (nat_of_ascii c - 32) else c.

Fixpoint toUpperCase (s : string) : string :=
  match s with
  | "" => ""
  | String c s' => String (upperChar c) (toUpperCase s')
  end.

(** [key.match(/^[a-zA-Z]$/)] *)
Definition isLetterKey (key : string) : bool :=
  match key with
  | String c "" => isLower c || isUpper c
  | _ => false
  end.

(** [a.join(sep)] *)
Fixpoint join (sep : string) (a : list string) : string :=
  match a with
  | [] => ""
  | [x] => x
  | x :: a' => x +:+ sep +:+ join sep a'
  end.

(** A run of [n] spaces. *)
Fixpoint spaces (n : nat) : string :=
  match n with
  | 0 => ""
  | S n' => String " " (spaces n')
  end.

End Text.

(** ** Game state (section 2 of [game.js]) *)

(** The strings "default", "absent", "present" and "correct"; a feedback
    array holds the last three only. *)
Inductive status := Default | Absent | Present | Correct.

Global Instance status_eq_dec : EqDecision status.
Proof. solve_decision. Defined.

(** [gameState] *)
Inductive phase := Loading | Playing | Revealing | Over.

Global Instance phase_eq_dec : EqDecision phase.
Proof. solve_decision. Defined.

(** An element of [guesses]: [{ word, phonemes, feedback }]. *)
Record guessRecord := GuessRecord {
  word : string;
  phonemes : list string;
  feedback : list status
}.

(** What [showMessageBox] displays. *)
Inductive message :=
  | WordNotInDictionary
  | GuessMustHave5Sounds (n : nat)
  | YouWon
  | OutOfGuesses (w : option string) (ph : list string).

Record state := State {
  dictionary : gmap string (list string);
  frequencySet : gset string;
  wordlist : list string;
  allPhonemesSorted : list string;
  phonemeStatus : gmap string status;
  targetWord : option string;
  targetPhonemes : option (list string);
  guesses : list guessRecord;
  currentGuess : string;
  currentRow : nat;
  gameState : phase;
  messageBox : option message
}.

Definition MAX_GUESSES : nat := 6.
Definition LINES_PER_FRAME : nat := 2000.

(** The values of the global variables when the script has been read. *)
Definition initial (freq : gset string) : state :=
  {| dictionary := ∅; frequencySet := freq; wordlist := [];
     allPhonemesSorted := []; phonemeStatus := ∅;
     targetWord := Some ""; targetPhonemes := Some [];
     guesses := []; currentGuess := ""; currentRow := 0;
     gameState := Loading; messageBox := None |}.

(** Assignments to one global variable. *)
Definition set_dictionary (v : gmap string (list string)) (st : state) : state :=
  {| dictionary := v; frequencySet := frequencySet st; wordlist := wordlist st;
     allPhonemesSorted := allPhonemesSorted st; phonemeStatus := phonemeStatus st;
     targetWord := targetWord st; targetPhonemes := targetPhonemes st;
     guesses := guesses st; currentGuess := currentGuess st;
     currentRow := currentRow st; gameState := gameState st;
     messageBox := messageBox st |}.

Definition set_wordlist (v : list string) (st : state) : state :=
  {| dictionary := dictionary st; frequencySet := frequencySet st; wordlist := v;
     allPhonemesSorted := allPhonemesSorted st; phonemeStatus := phonemeStatus st;
     targetWord := targetWord st; targetPhonemes := targetPhonemes st;
     guesses := guesses st; currentGuess := currentGuess st;
     currentRow := currentRow st; gameState := gameState st;
     messageBox := messageBox st |}.

Definition set_allPhonemesSorted (v : list string) (st : state) : state :=
  {| dictionary := dictionary st; frequencySet := frequencySet st;
     wordlist := wordlist st;
     allPhonemesSorted := v; phonemeStatus := phonemeStatus st;
     targetWord := targetWord st; targetPhonemes := targetPhonemes st;
     guesses := guesses st; currentGuess := currentGuess st;
     currentRow := currentRow st; gameState := gameState st;
     messageBox := messageBox st |}.

Definition set_phonemeStatus (v : gmap string status) (st : state) : state :=
  {| dictionary := dictionary st; frequencySet := frequencySet st;
     wordlist := wordlist st;
     allPhonemesSorted := allPhonemesSorted st; phonemeStatus := v;
     targetWord := targetWord st; targetPhonemes := targetPhonemes st;
     guesses := guesses st; currentGuess := currentGuess st;
     currentRow := currentRow st; gameState := gameState st;
     messageBox := messageBox st |}.

Definition set_targetWord (v : option string) (st : state) : state :=
  {| dictionary := dictionary st; frequencySet := frequencySet st;
     wordlist := wordlist st;
     allPhonemesSorted := allPhonemesSorted st; phonemeStatus := phonemeStatus st;
     targetWord := v; targetPhonemes := targetPhonemes st;
     guesses := guesses st; currentGuess := currentGuess st;
     currentRow := currentRow st; gameState := gameState st;
     messageBox := messageBox st |}.

Definition set_targetPhonemes (v : option (list string)) (st : state) : state :=
  {| dictionary := dictionary st; frequencySet := frequencySet st;
     wordlist := wordlist st;
     allPhonemesSorted := allPhonemesSorted st; phonemeStatus := phonemeStatus st;
     targetWord := targetWord st; targetPhonemes := v;
     guesses := guesses st; currentGuess := currentGuess st;
     currentRow := currentRow st; gameState := gameState st;
     messageBox := messageBox st |}.

Definition set_guesses (v : list guessRecord) (st : state) : state :=
  {| dictionary := dictionary st; frequencySet := frequencySet st;
     wordlist := wordlist st;
     allPhonemesSorted := allPhonemesSorted st; phonemeStatus := phonemeStatus st;
     targetWord := targetWord st; targetPhonemes := targetPhonemes st;
     guesses := v; currentGuess := currentGuess st;
     currentRow := currentRow st; gameState := gameState st;
     messageBox := messageBox st |}.

Definition set_currentGuess (v : string) (st : state) : state :=
  {| dictionary := dictionary st; frequencySet := frequencySet st;
     wordlist := wordlist st;
     allPhonemesSorted := allPhonemesSorted st; phonemeStatus := phonemeStatus st;
     targetWord := targetWord st; targetPhonemes := targetPhonemes st;
     guesses := guesses st; currentGuess := v;
     currentRow := currentRow st; gameState := gameState st;
     messageBox := messageBox st |}.

Definition set_currentRow (v : nat) (st : state) : state :=
  {| dictionary := dictionary st; frequencySet := frequencySet st;
     wordlist := wordlist st;
     allPhonemesSorted := allPhonemesSorted st; phonemeStatus := phonemeStatus st;
     targetWord := targetWord st; targetPhonemes := targetPhonemes st;
     guesses := guesses st; currentGuess := currentGuess st;
     currentRow := v; gameState := gameState st;
     messageBox := messageBox st |}.

Definition set_gameState (v : phase) (st : state) : state :=
  {| dictionary := dictionary st; frequencySet := frequencySet st;
     wordlist := wordlist st;
     allPhonemesSorted := allPhonemesSorted st; phonemeStatus := phonemeStatus st;
     targetWord := targetWord st; targetPhonemes := targetPhonemes st;
     guesses := guesses st; currentGuess := currentGuess st;
     currentRow := currentRow st; gameState := v;
     messageBox := messageBox st |}.

Definition set_messageBox (v : option message) (st : state) : state :=
  {| dictionary := dictionary st; frequencySet := frequencySet st;
     wordlist := wordlist st;
     allPhonemesSorted := allPhonemesSorted st; phonemeStatus := phonemeStatus st;
     targetWord := targetWord st; targetPhonemes := targetPhonemes st;
     guesses := guesses st; currentGuess := currentGuess st;
     currentRow := currentRow st; gameState := gameState st;
     messageBox := v |}.

(** A JavaScript exception leaves the function at once; the assignments
    made before it remain. *)
Inductive exn := TypeError.

Inductive outcome :=
  | Returns (st : state)
  | Throws (e : exn) (st : state).

Definition stateOf (o : outcome) : state :=
  match o with
  | Returns st => st
  | Throws _ st => st
  end.

(** ** Starting a round ([startGame]) *)

(** A property key that is [undefined] is looked up as "undefined". *)
Definition propertyKey (k : option string) : string :=
  match k with
  | Some s => s
  | None => "undefined"
  end.

(** [r] is the value of [Math.floor(Math.random() * wordlist.length)]: an
    index of [wordlist], and 0 when [wordlist] is empty. *)
Definition startGame (r : nat) (st : state) : outcome :=
  let st := set_guesses [] st in
  let st := set_currentGuess "" st in
  let st := set_currentRow 0 st in
  let st := set_targetWord (wordlist st !! r) st in
  let st := set_targetPhonemes (dictionary st !! propertyKey (targetWord st)) st in
  match targetPhonemes st with
  | None => Throws TypeError st (* [targetPhonemes.join] of [undefined] *)
  | Some _ =>
      let st :=
        set_phonemeStatus
          (foldl (λ m p, <[p := Default]> m) ∅ (allPhonemesSorted st)) st in
      let st := set_messageBox None st in
      Returns (set_gameState Playing st)
  end.

(** ** Evaluating a guess (lines 187 to 207 of [submitGuess]) *)

(** [a.indexOf(x)] on an array of strings and [null]s; [None] is -1. *)
Fixpoint indexOf (x : string) (a : list (option string)) : option nat :=
  match a with
  | [] => None
  | y :: a' => if decide (y = Some x) then Some 0 else S <$> indexOf x a'
  end.

(** One turn of the first loop.  The guess has five phonemes here (guard
    of line 180), so [guessPhonemes[i]] is a string; it equals neither
    [null] nor [undefined]. *)
Definition firstPassStep (guessPhonemes : list string)
    (acc : list status * list (option string)) (i : nat)
    : list status * list (option string) :=
  let '(fb, tempTarget) := acc in
  match guessPhonemes !! i, tempTarget !! i with
  | Some g, Some (Some t) =>
      if decide (g = t) then (<[i := Correct]> fb, <[i := None]> tempTarget)
      else acc
  | _, _ => acc
  end.

(** One turn of the second loop. *)
Definition secondPassStep (guessPhonemes : list string)
    (acc : list status * list (option string)) (i : nat)
    : list status * list (option string) :=
  let '(fb, tempTarget) := acc in
  if decide (fb !! i = Some Correct) then acc
  else
    match guessPhonemes !! i with
    | Some g =>
        match indexOf g tempTarget with
        | Some index => (<[i := Present]> fb, <[index := None]> tempTarget)
        | None => acc
        end
    | None => acc
    end.

Definition evaluate (guessPhonemes targetPhonemes : list string) : list status :=
  let fb := [Absent; Absent; Absent; Absent; Absent] in
  let tempTarget := Some <$> targetPhonemes in
  let acc := foldl (firstPassStep guessPhonemes) (fb, tempTarget) (seq 0 5) in
  let acc := foldl (secondPassStep guessPhonemes) acc (seq 0 5) in
  acc.1.

(** ** The keyboard status map (lines 212 to 222 of [submitGuess]) *)

Definition statusStep (ps : gmap string status) (p : string) (f : status)
    : gmap string status :=
  let currentStatus := ps !! p in
  if decide (f = Correct) then <[p := Correct]> ps
  else if decide (f = Present ∧ currentStatus ≠ Some Correct) then <[p := Present]> ps
  else if decide (f = Absent ∧ currentStatus = Some Default) then <[p := Absent]> ps
  else ps.

Definition updateStatus (guessPhonemes : list string) (fb : list status)
    (ps : gmap string status) : gmap string status :=
  foldl (λ ps i,
           match guessPhonemes !! i, fb !! i with
           | Some p, Some f => statusStep ps p f
           | _, _ => ps
           end)
        ps (seq 0 5).

(** ** Submitting a guess *)

Definition showError (msg : message) (st : state) : state :=
  let st := set_messageBox (Some msg) st in
  set_currentGuess "" st.

Definition submitGuess (st : state) : outcome :=
  if bool_decide (String.length (currentGuess st) = 0) then Returns st
  else
    match dictionary st !! currentGuess st with
    | None => Returns (showError WordNotInDictionary st)
    | Some guessPhonemes =>
        if bool_decide (length guessPhonemes ≠ 5)
        then Returns (showError (GuessMustHave5Sounds (length guessPhonemes)) st)
        else
          let st := set_gameState Revealing st in
          match targetPhonemes st with
          | None => Throws TypeError st (* spread of [undefined] *)
          | Some target =>
              let fb := evaluate guessPhonemes target in
              let st :=
                set_guesses
                  (guesses st ++ [GuessRecord (currentGuess st) guessPhonemes fb])
                  st in
              let st :=
                set_phonemeStatus
                  (updateStatus guessPhonemes fb (phonemeStatus st)) st in
              (* [animateGuess] then schedules [checkWinLoss] *)
              Returns (set_currentGuess "" st)
          end
    end.

(** ** Closing a row ([checkWinLoss]) *)

Definition checkWinLoss (st : state) : outcome :=
  match last (guesses st) with
  | None => Throws TypeError st (* [feedback] of [undefined] *)
  | Some lastGuess =>
      let won := forallb (λ f, bool_decide (f = Correct)) (feedback lastGuess) in
      if won then
        let st := set_messageBox (Some YouWon) st in
        Returns (set_gameState Over st)
      else if bool_decide (length (guesses st) = MAX_GUESSES) then
        match targetPhonemes st with
        | None => Throws TypeError st
        | Some ph =>
            let st := set_messageBox (Some (OutOfGuesses (targetWord st) ph)) st in
            Returns (set_gameState Over st)
        end
      else
        let st := set_currentRow (S (currentRow st)) st in
        Returns (set_gameState Playing st)
  end.

(** ** Keyboard input ([handleKeydown]) *)

Definition handleKeydown (key : string) (r : nat) (st : state) : outcome :=
  if bool_decide (gameState st = Over ∧ key = "Enter") then startGame r st
  else if bool_decide (gameState st ≠ Playing) then Returns st
  else if bool_decide (key = "Enter") then submitGuess st
  else if bool_decide (key = "Backspace")
       then Returns (set_currentGuess (Text.dropLast (currentGuess st)) st)
  else if Text.isLetterKey key
       then Returns (set_currentGuess (currentGuess st +:+ Text.toUpperCase key) st)
  else Returns st.

(** ** Loading the dictionary ([loadGameData], [finishLoading]) *)

(** [phonemeSet.add(p)]: a new element goes behind the others. *)
Definition setAdd (s : list string) (p : string) : list string :=
  if decide (p ∈ s) then s else s ++ [p].

(** Lines 73 to 78: the record read from one line, if it holds one. *)
Definition parseLine (line : string) : option (string * list string) :=
  if Text.truthy line && negb (Text.startsWith ";;;" line) then
    match Text.split "  " line with
    | [w; rest] =>
        let phonemesStr := Text.removeDigits rest in
        Some (w, filter (λ p, Text.truthy p) (Text.split " " phonemesStr))
    | _ => None
    end
  else None.

(** Lines 80 to 85: what is done with a record. *)
Definition storeRecord (w : string) (ph : list string)
    (acc : state * list string) : state * list string :=
  let '(st, phonemeSet) := acc in
  let st := set_dictionary (<[w := ph]> (dictionary st)) st in
  let phonemeSet := foldl setAdd phonemeSet ph in
  let st :=
    if bool_decide (length ph = 5) && bool_decide (w ∈ frequencySet st)
    then set_wordlist (wordlist st ++ [w]) st
    else st in
  (st, phonemeSet).

(** The body of the loop of [processDictionaryChunk]. *)
Definition processLine (acc : state * list string) (line : string)
    : state * list string :=
  match parseLine line with
  | Some (w, ph) => storeRecord w ph acc
  | None => acc
  end.

(** [Array.prototype.sort] without a comparison function orders strings by
    their character codes.  The characters here are 8-bit codes: for
    symbols of ASCII characters, as the phonemes of the dictionary format
    are, this is the order of the UTF-16 code units that the program
    compares; for other characters the two orders can differ, and the
    statements below rely on the elements of the result only, not on their
    order. *)
Definition sortStrings (a : list string) : list string :=
  merge_sort String.le a.

Definition finishLoading (phonemeSet : list string) (r : nat) (st : state)
    : outcome :=
  let st := set_allPhonemesSorted (sortStrings phonemeSet) st in
  startGame r st.

Definition newline : string := String "010" "".

Section loadGameData.

(** The lines of the dictionary, the batch size ([LINES_PER_FRAME] in the
    program), the random index drawn by the first [startGame], and the
    key presses (with the index a restart would draw) that the event
    loop delivers at the yield before the chunk that starts at a given
    line. *)
Variable lines : list string.
Variable linesPerFrame : nat.
Variable r : nat.
Variable keys : nat → list (string * nat).

(** The [for] loop over the lines [index] to [endIndex - 1]. *)
Definition processRange (index endIndex : nat) (acc : state * list string)
    : state * list string :=
  foldl (λ acc i,
           match lines !! i with
           | Some line => processLine acc line
           | None => acc
           end)
        acc (seq index (endIndex - index)).

(** Key presses handled while the loader waits for its next turn; an
    exception in a handler ends that handler only. *)
Definition deliver (ks : list (string * nat)) (st : state) : state :=
  foldl (λ st k, stateOf (handleKeydown k.1 k.2 st)) st ks.

(** [turns] bounds the number of turns of the event loop given to the
    loader; [None] means that loading has not finished within them. *)
Fixpoint processDictionaryChunk (turns : nat) (index : nat)
    (acc : state * list string) : option outcome :=
  match turns with
  | 0 => None
  | S turns' =>
      let totalLines := length lines in
      let endIndex := (index + linesPerFrame) `min` totalLines in
      let acc := processRange index endIndex acc in
      if bool_decide (endIndex < totalLines)
      then processDictionaryChunk turns' endIndex
             (deliver (keys endIndex) acc.1, acc.2)
      else Some (finishLoading acc.2 r acc.1)
  end.

End loadGameData.

(** The second half of [loadGameData]; [frequencySet] has been filled. *)
Definition loadGameData (dictText : string) (linesPerFrame r : nat)
    (keys : nat → list (string * nat)) (turns : nat) (st : state)
    : option outcome :=
  let lines := Text.split newline dictText in
  processDictionaryChunk lines linesPerFrame r keys turns 0 (st, []).

(** Processing all lines in a single pass, as the specification words it. *)
Definition loadSinglePass (dictText : string) (r : nat) (st : state) : outcome :=
  let lines := Text.split newline dictText in
  let acc := foldl processLine (st, []) lines in
  finishLoading acc.2 r acc.1.

Definition noKeys : nat → list (string * nat) := λ _, [].

(** * Vocabulary of the properties *)

(** ** Counting the markings of a symbol *)

Section counting.

(** The symbol whose markings are counted. *)
Variable s : string.

(** Number of positions marked correct or present whose guess symbol is
    [s]. *)
Definition marked (guessPhonemes : list string) (fb : list status) : nat :=
  length (filter (λ gf, gf.1 = s ∧ (gf.2 = Correct ∨ gf.2 = Present))
                 (zip guessPhonemes fb)).

(** Number of slots of the working copy that still hold [s]. *)
Definition remaining (tempTarget : list (option string)) : nat :=
  length (filter (λ slot, slot = Some s) tempTarget).

(** Number of occurrences of [s] in the target. *)
Definition occurrences (targetPhonemes : list string) : nat :=
  length (filter (λ t, t = s) targetPhonemes).

Definition weight (g : string) : nat := if decide (g = s) then 1 else 0.

(** Every marking of [s] has consumed a slot that held [s]. *)
Definition accounted (guessPhonemes targetPhonemes : list string)
    (acc : list status * list (option string)) : Prop :=
  marked guessPhonemes acc.1 + remaining acc.2 ≤ occurrences targetPhonemes.

End counting.

(** ** Ranks of the keyboard status *)

(** default < absent < present < correct *)
Definition rank (f : status) : nat :=
  match f with
  | Default => 0
  | Absent => 1
  | Present => 2
  | Correct => 3
  end.

(** The rank of a symbol in the status map; a symbol without an entry is
    shown as default by [updatePhonemeKeyboard]. *)
Definition rankOf (ps : gmap string status) (p : string) : nat :=
  from_option rank 0 (ps !! p).

(** ** Steps of a round *)

(** What can happen to the state within one round: a key press that is not
    the restart of a finished round, or the delayed [checkWinLoss]. *)
Inductive roundStep : state → state → Prop :=
  | step_keydown (key : string) (r : nat) (st : state) :
      ¬ (gameState st = Over ∧ key = "Enter") →
      roundStep st (stateOf (handleKeydown key r st))
  | step_checkWinLoss (st : state) :
      roundStep st (stateOf (checkWinLoss st)).

(** ** Shapes of dictionary lines *)

(** [P] holds of every character of [s]. *)
Fixpoint allChars (P : ascii → bool) (s : string) : bool :=
  match s with
  | "" => true
  | String c s' => P c && allChars P s'
  end.

Definition notSpace (c : ascii) : bool := negb (bool_decide (c = " "%char)).
Definition notDigit (c : ascii) : bool := negb (Text.isDigit c).

Definition spaceFree (s : string) : bool := allChars notSpace s.
Definition digitFree (s : string) : bool := allChars notDigit s.
Definition allDigits (s : string) : bool := allChars Text.isDigit s.

(** A stored phoneme symbol is in order when it is not empty and holds no
    digit. *)
Definition cleanSymbol (p : string) : bool := Text.truthy p && digitFree p.

(** Puts a text in front of the first piece of a split. *)
Definition prependHead (w : string) (pieces : list string) : list string :=
  match pieces with
  | p :: ps => (w +:+ p) :: ps
  | [] => [w]
  end.

(** A piece of text that the separators of a record cannot cut. *)
Definition solid (t : string) : bool := Text.truthy t && spaceFree t.

(** A phoneme of a record: a symbol followed by its stress digits. *)
Definition tokenText (bd : string * string) : string := bd.1 +:+ bd.2.

(** The symbol is not empty and has neither spaces nor digits; the stress
    marker has digits only. *)
Definition phonemeToken (bd : string * string) : bool :=
  Text.truthy bd.1 && spaceFree bd.1 && digitFree bd.1 && allDigits bd.2.

(** The line made of a word, [k] spaces and the phonemes, one space between
    two of them. *)
Definition recordLine (w : string) (k : nat) (toks : list (string * string))
    : string :=
  w +:+ Text.spaces k +:+ Text.join " " (tokenText <$> toks).

(** The records of a dictionary, in file order. *)
Definition records (lines : list string) : list (string * list string) :=
  omap parseLine lines.

(** The words of the records with five phonemes that are in the frequency
    set. *)
Definition candidates (freq : gset string) (recs : list (string * list string))
    : list string :=
  (filter (λ wp, length wp.2 = 5 ∧ wp.1 ∈ freq) recs).*1.

(** The symbols of the lexicon map and of the alphabet under
    construction are in order. *)
Definition lexiconClean (acc : state * list string) : Prop :=
  map_Forall (λ _ ph, Forall (λ p, cleanSymbol p) ph) (dictionary acc.1)
  ∧ Forall (λ p, cleanSymbol p) acc.2.

(** ** Sample data *)

(** A round in which K is known correct and AE present; the guess CATS
    then gets absent for both. *)
Definition sampleRound : state :=
  {| dictionary := {[ "CATS" := ["K"; "AE"; "T"; "S"; "IY"] ]};
     frequencySet := ∅; wordlist := ["BEETS"];
     allPhonemesSorted := ["AE"; "B"; "IY"; "K"; "S"; "T"];
     phonemeStatus := {[ "K" := Correct; "AE" := Present ]};
     targetWord := Some "BEETS";
     targetPhonemes := Some ["B"; "IY"; "T"; "S"; "Z"];
     guesses := []; currentGuess := "CATS"; currentRow := 0;
     gameState := Playing; messageBox := None |}.

Definition sampleDictionary : string :=
  ";;; sample" +:+ newline +:+
  "CAB  K AE1 B" +:+ newline +:+
  "CATSY  K AE1 T S IY0" +:+ newline +:+
  "BEETSY   B IY1 T S IY0".

(** * Vocabulary of further properties *)

(** ** The two passes of the evaluation *)

(** The guess and the target hold the same symbol at position [i]. *)
Definition matchAt (G T : list string) (i : nat) : Prop :=
  is_Some (G !! i) ∧ G !! i = T !! i.

Global Instance matchAt_dec (G T : list string) (i : nat) :
  Decision (matchAt G T i).
Proof. unfold matchAt. apply _. Defined.

(** The feedback and the working copy after the first [n] turns of the
    first loop, and after the first [n] turns of the second loop. *)
Definition afterFirst (G T : list string) (n : nat)
    : list status * list (option string) :=
  foldl (firstPassStep G)
        ([Absent; Absent; Absent; Absent; Absent], Some <$> T) (seq 0 n).

Definition afterSecond (G T : list string) (n : nat)
    : list status * list (option string) :=
  foldl (secondPassStep G) (afterFirst G T 5) (seq 0 n).

(** A verdict that marks a position. *)
Definition isMark (f : status) : Prop := f = Correct ∨ f = Present.

(** ** The keyboard status of a symbol *)

(** The ranks of the verdicts that a guess gets at the positions of [p]. *)
Definition verdictRanks (p : string) (G : list string) (fb : list status)
    : list nat :=
  rank <$> (filter (λ gf, gf.1 = p) (zip G fb)).*2.

(** ** The game as a whole *)

(** What can happen to the state: a key press, or the [checkWinLoss] that
    [animateGuess] schedules; it runs while the phase is revealing. *)
Inductive gameStep : state → state → Prop :=
  | game_keydown (key : string) (r : nat) (st : state) :
      gameStep st (stateOf (handleKeydown key r st))
  | game_checkWinLoss (st : state) :
      gameState st = Revealing →
      gameStep st (stateOf (checkWinLoss st)).

(** The rows of a round: at most [MAX_GUESSES] guesses, each with five
    phonemes and five verdicts; while playing [currentRow] is the number
    of guesses, and while revealing it is the index of the last one. *)
Definition rowsInOrder (st : state) : Prop :=
  length (guesses st) ≤ MAX_GUESSES
  ∧ Forall (λ g, length (phonemes g) = 5 ∧ length (feedback g) = 5)
           (guesses st)
  ∧ match gameState st with
    | Playing =>
        is_Some (targetPhonemes st)
        ∧ currentRow st = length (guesses st)
        ∧ length (guesses st) < MAX_GUESSES
    | Revealing =>
        is_Some (targetPhonemes st)
        ∧ length (guesses st) = S (currentRow st)
    | Loading | Over => True
    end.

(** The input buffer holds capital letters only. *)
Definition lettersOnly (s : string) : bool := allChars Text.isUpper s.

(** Every symbol of the alphabet has an entry in the status map. *)
Definition keysHaveStatus (st : state) : Prop :=
  Forall (λ p, is_Some (phonemeStatus st !! p)) (allPhonemesSorted st).

(** ** Loading the frequency list (first half of [loadGameData]) *)

Definition set_frequencySet (v : gset string) (st : state) : state :=
  {| dictionary := dictionary st; frequencySet := v; wordlist := wordlist st;
     allPhonemesSorted := allPhonemesSorted st; phonemeStatus := phonemeStatus st;
     targetWord := targetWord st; targetPhonemes := targetPhonemes st;
     guesses := guesses st; currentGuess := currentGuess st;
     currentRow := currentRow st; gameState := gameState st;
     messageBox := messageBox st |}.

Section frequency.

(** [String.prototype.toUpperCase], on any text. *)
Variable toUpperCase : string → string.

(** Lines 55 to 58. *)
Definition loadFrequency (freqText : string) (st : state) : state :=
  foldl (λ st word,
           if Text.truthy word
           then set_frequencySet ({[toUpperCase word]} ∪ frequencySet st) st
           else st)
        st (Text.split newline freqText).

End frequency.

(** * Properties *)

(** ** Guess evaluation *)

Section evaluation.

(** The symbol whose markings are counted. *)
Variable s : string.

Lemma marked_insert guessPhonemes fb i g v :
  guessPhonemes !! i = Some g →
  marked s guessPhonemes (<[i := v]> fb) ≤ marked s guessPhonemes fb + weight s g.
Proof.
  unfold marked, weight.
  revert fb i. induction guessPhonemes as [|g0 G IH]; intros fb i Hi; [done|].
  destruct fb as [|f fb]; [simpl; lia|].
  destruct i as [|i]; simpl in *.
  - simplify_eq. rewrite !filter_cons. simpl.
    repeat case_decide; simpl; try lia; tauto.
  - specialize (IH fb i Hi). rewrite !filter_cons. simpl.
    repeat case_decide; simpl; lia.
Qed.

Lemma remaining_consume tempTarget j t :
  tempTarget !! j = Some (Some t) →
  remaining s (<[j := None]> tempTarget) + weight s t = remaining s tempTarget.
Proof.
  unfold remaining, weight.
  revert j. induction tempTarget as [|slot tt IH]; intros j Hj; [done|].
  destruct j as [|j]; simpl in *.
  - simplify_eq. rewrite !filter_cons.
    repeat case_decide; simplify_eq; simpl; lia.
  - specialize (IH j Hj). rewrite !filter_cons.
    repeat case_decide; simpl; lia.
Qed.

Lemma indexOf_lookup g tempTarget j :
  indexOf g tempTarget = Some j → tempTarget !! j = Some (Some g).
Proof.
  revert j. induction tempTarget as [|slot tt IH]; intros j; simpl; [done|].
  case_decide; [intros [= <-]; by subst|].
  destruct (indexOf g tt) as [k|]; simpl; [|done].
  intros [= <-]. by apply IH.
Qed.

Lemma firstPassStep_accounted G T acc i :
  accounted s G T acc → accounted s G T (firstPassStep G acc i).
Proof.
  destruct acc as [fb tt]. unfold accounted, firstPassStep. simpl.
  destruct (G !! i) as [g|] eqn:Hg; [|done].
  destruct (tt !! i) as [[t|]|] eqn:Ht; [|done..].
  case_decide; [|done]. subst t. simpl.
  pose proof (marked_insert G fb i g Correct Hg).
  pose proof (remaining_consume tt i g Ht). lia.
Qed.

Lemma secondPassStep_accounted G T acc i :
  accounted s G T acc → accounted s G T (secondPassStep G acc i).
Proof.
  destruct acc as [fb tt]. unfold accounted, secondPassStep. simpl.
  case_decide; [done|].
  destruct (G !! i) as [g|] eqn:Hg; [|done].
  destruct (indexOf g tt) as [j|] eqn:Hj; [|done]. simpl.
  apply indexOf_lookup in Hj.
  pose proof (marked_insert G fb i g Present Hg).
  pose proof (remaining_consume tt j g Hj). lia.
Qed.

Lemma marked_all_absent G fb :
  Forall (λ f, f = Absent) fb → marked s G fb = 0.
Proof.
  unfold marked. intros Hfb. revert G.
  induction Hfb as [|f fb -> _ IH]; intros [|g G']; try done.
  simpl. rewrite filter_cons. case_decide as Hm; [|apply IH].
  by destruct Hm as [_ [|]].
Qed.

Lemma remaining_fresh T : remaining s (Some <$> T) = occurrences s T.
Proof.
  unfold remaining, occurrences. induction T as [|t T IH]; [done|].
  rewrite fmap_cons, !filter_cons.
  repeat case_decide; simplify_eq; simpl; by rewrite ?IH.
Qed.

Lemma evaluate_accounted G T : marked s G (evaluate G T) ≤ occurrences s T.
Proof.
  unfold evaluate.
  set (start := ([Absent; Absent; Absent; Absent; Absent], Some <$> T)).
  assert (accounted s G T start) as H0.
  { unfold accounted, start. simpl.
    rewrite marked_all_absent, remaining_fresh; [done|].
    repeat constructor. }
  assert (∀ l acc, accounted s G T acc →
                   accounted s G T (foldl (firstPassStep G) acc l)) as H1.
  { induction l as [|i l IH]; intros acc Hacc; [done|].
    simpl. by apply IH, firstPassStep_accounted. }
  assert (∀ l acc, accounted s G T acc →
                   accounted s G T (foldl (secondPassStep G) acc l)) as H2.
  { induction l as [|i l IH]; intros acc Hacc; [done|].
    simpl. by apply IH, secondPassStep_accounted. }
  specialize (H2 (seq 0 5) _ (H1 (seq 0 5) _ H0)).
  unfold accounted in H2. lia.
Qed.

End evaluation.

(** C1. For all 5-symbol sequences [G] and [T] and every symbol [s], the
    positions of the feedback that are marked correct or present and whose
    guess symbol is [s] are at most as many as the occurrences of [s] in
    [T]. *)
Theorem feedback_marks_bounded (G T : list string) (s : string) :
  length G = 5 → length T = 5 →
  marked s G (evaluate G T) ≤ occurrences s T.
Proof. intros _ _. apply evaluate_accounted. Qed.

Lemma feedback_marks_bounded_witness :
  marked "B" ["B"; "B"; "AH"; "B"; "IY"] (evaluate ["B"; "B"; "AH"; "B"; "IY"] ["K"; "B"; "B"; "AH"; "T"])
  ≤ occurrences "B" ["K"; "B"; "B"; "AH"; "T"].
Proof.
  apply (feedback_marks_bounded ["B"; "B"; "AH"; "B"; "IY"] ["K"; "B"; "B"; "AH"; "T"] "B");
    reflexivity.
Defined.

(** C2. The guess [A,A,B,C,D] against the target [A,B,B,C,C], for distinct
    symbols [A], [B], [C] and [D], gets the feedback
    [correct, absent, correct, correct, absent]. *)
Theorem evaluate_duplicate_case (A B C D : string) :
  NoDup [A; B; C; D] →
  evaluate [A; A; B; C; D] [A; B; B; C; C]
  = [Correct; Absent; Correct; Correct; Absent].
Proof.
  rewrite !NoDup_cons, !elem_of_cons. intros (HA & HB & HC & _).
  assert (A ≠ B ∧ A ≠ C ∧ A ≠ D ∧ B ≠ C ∧ B ≠ D ∧ C ≠ D) as (?&?&?&?&?&?)
    by (repeat split; intros ->; tauto).
  unfold evaluate. cbn.
  repeat (case_decide; simplify_eq; try done; cbn).
Qed.

Lemma evaluate_duplicate_case_witness :
  evaluate ["AA"; "AA"; "B"; "CH"; "D"] ["AA"; "B"; "B"; "CH"; "CH"]
  = [Correct; Absent; Correct; Correct; Absent].
Proof.
  apply (evaluate_duplicate_case "AA" "B" "CH" "D").
  refine (bool_decide_unpack (NoDup ["AA"; "B"; "CH"; "D"]) _).
  vm_compute. exact I.
Defined.

(** ** The keyboard status map *)

Section status_map.

Implicit Types (ps : gmap string status) (p q : string) (f : status).

Lemma statusStep_rank ps q f p : rankOf ps p ≤ rankOf (statusStep ps q f) p.
Proof.
  unfold statusStep, rankOf.
  destruct (decide (q = p)) as [->|Hne].
  - repeat case_decide; rewrite ?lookup_insert_eq; destruct_and?;
      destruct (ps !! p) as [[]|]; simpl; lia || done.
  - repeat case_decide; by rewrite ?lookup_insert_ne.
Qed.

Lemma statusStep_sticky ps q f p :
  ps !! p = Some Correct → statusStep ps q f !! p = Some Correct.
Proof.
  intros Hp. pose proof (statusStep_rank ps q f p) as Hr.
  unfold rankOf in Hr. rewrite Hp in Hr. simpl in Hr.
  destruct (statusStep ps q f !! p) as [[]|]; simpl in Hr; done || lia.
Qed.

Lemma updateStatus_rank G fb ps p : rankOf ps p ≤ rankOf (updateStatus G fb ps) p.
Proof.
  unfold updateStatus. generalize (seq 0 5). intros l. revert ps.
  induction l as [|i l IH]; intros ps; [done|]. simpl.
  etrans; [|apply IH].
  destruct (G !! i), (fb !! i); try done. apply statusStep_rank.
Qed.

Lemma rank_top ps p : 3 ≤ rankOf ps p → ps !! p = Some Correct.
Proof.
  unfold rankOf. destruct (ps !! p) as [[]|]; simpl; done || lia.
Qed.

End status_map.

(** ** The round state machine *)

Section round.

Implicit Types (st : state) (p : string).

Lemma submitGuess_rank st p :
  rankOf (phonemeStatus st) p ≤ rankOf (phonemeStatus (stateOf (submitGuess st))) p.
Proof.
  unfold submitGuess.
  case_bool_decide; [done|].
  destruct (dictionary st !! currentGuess st) as [ph|]; [|done].
  case_bool_decide; [done|]. simpl.
  destruct (targetPhonemes st); [|done]. simpl.
  apply updateStatus_rank.
Qed.

Lemma checkWinLoss_phonemeStatus st :
  phonemeStatus (stateOf (checkWinLoss st)) = phonemeStatus st.
Proof.
  unfold checkWinLoss.
  destruct (last (guesses st)); [|done].
  destruct (forallb _ _); [done|].
  case_bool_decide; [|done]. by destruct (targetPhonemes st).
Qed.

Lemma roundStep_rank st st' p :
  roundStep st st' → rankOf (phonemeStatus st) p ≤ rankOf (phonemeStatus st') p.
Proof.
  intros [key r st0 Hkey|st0].
  - unfold handleKeydown. rewrite bool_decide_eq_false_2 by done.
    case_bool_decide; [done|].
    case_bool_decide; [apply submitGuess_rank|].
    case_bool_decide; [done|]. by destruct (Text.isLetterKey key).
  - by rewrite checkWinLoss_phonemeStatus.
Qed.

Lemma round_rank st st' p :
  rtc roundStep st st' → rankOf (phonemeStatus st) p ≤ rankOf (phonemeStatus st') p.
Proof.
  induction 1 as [|st1 st2 st3 Hstep _ IH]; [done|].
  etrans; [by apply roundStep_rank|done].
Qed.

End round.

(** C3. Whatever happens within one round, the status rank of a symbol
    (default < absent < present < correct) never decreases: a symbol that
    is correct stays correct, a present verdict does not overwrite correct,
    and an absent verdict is applied only when the current status is
    default. *)
Theorem status_never_downgraded (st st' : state) (p : string) :
  rtc roundStep st st' →
  rankOf (phonemeStatus st) p ≤ rankOf (phonemeStatus st') p
  ∧ (phonemeStatus st !! p = Some Correct → phonemeStatus st' !! p = Some Correct)
  ∧ (∀ ps : gmap string status,
       ps !! p = Some Correct → statusStep ps p Present = ps)
  ∧ (∀ ps : gmap string status,
       ps !! p ≠ Some Default → statusStep ps p Absent = ps).
Proof.
  intros Hround. split; [by apply round_rank|]. split; [|split].
  - intros Hp. apply rank_top. etrans; [|by apply round_rank].
    unfold rankOf. by rewrite Hp.
  - intros ps Hp. unfold statusStep. rewrite Hp.
    repeat case_decide; destruct_and?; done || congruence.
  - intros ps Hp. unfold statusStep.
    repeat case_decide; destruct_and?; done || congruence.
Qed.

Lemma status_never_downgraded_witness :
  let st' := stateOf (checkWinLoss (stateOf (handleKeydown "Enter" 0 sampleRound))) in
  phonemeStatus st' !! "K" = Some Correct
  ∧ statusStep (phonemeStatus sampleRound) "K" Present = phonemeStatus sampleRound
  ∧ statusStep (phonemeStatus sampleRound) "AE" Absent = phonemeStatus sampleRound.
Proof.
  intros st'.
  assert (rtc roundStep sampleRound st') as Hround.
  { eapply rtc_l; [|apply rtc_once, step_checkWinLoss].
    apply step_keydown. intros [? _]. discriminate. }
  pose proof (status_never_downgraded sampleRound st' "K" Hround) as (_ & HK & HK' & _).
  pose proof (status_never_downgraded sampleRound st' "AE" Hround) as (_ & _ & _ & HAE).
  split; [|split].
  - apply HK. reflexivity.
  - apply HK'. reflexivity.
  - apply HAE. vm_compute. discriminate.
Defined.

(** C4. When [checkWinLoss] runs after a submitted guess of a started
    round: if all feedback entries of the last guess are correct the phase
    becomes over with the message of a win; otherwise, with six guesses
    submitted, the phase becomes over and the message discloses the target
    word and its pronunciation; otherwise the phase is playing again and
    the row index has grown by one. *)
Theorem checkWinLoss_decides (st : state) (lastGuess : guessRecord)
    (target : list string) :
  last (guesses st) = Some lastGuess →
  targetPhonemes st = Some target →
  ∃ st', checkWinLoss st = Returns st'
    ∧ guesses st' = guesses st
    ∧ if decide (Forall (λ f, f = Correct) (feedback lastGuess)) then
        gameState st' = Over ∧ messageBox st' = Some YouWon
        ∧ currentRow st' = currentRow st
      else if decide (length (guesses st) = 6) then
        gameState st' = Over
        ∧ messageBox st' = Some (OutOfGuesses (targetWord st) target)
        ∧ currentRow st' = currentRow st
      else
        gameState st' = Playing ∧ currentRow st' = S (currentRow st)
        ∧ messageBox st' = messageBox st.
Proof.
  intros Hlast Htarget. unfold checkWinLoss. rewrite Hlast, Htarget.
  destruct (decide (Forall (λ f, f = Correct) (feedback lastGuess)))
    as [Hall|Hnot].
  - assert (forallb (λ f, bool_decide (f = Correct)) (feedback lastGuess) = true)
      as ->; [|by eexists].
    apply Is_true_true_1, forallb_True.
    eapply Forall_impl; [done|]. intros f ->. by apply bool_decide_pack.
  - assert (forallb (λ f, bool_decide (f = Correct)) (feedback lastGuess) = false)
      as ->.
    { apply not_true_iff_false. intros Hwon. apply Hnot.
      apply Is_true_true_2, forallb_True in Hwon.
      eapply Forall_impl; [done|]. intros f Hf. by apply bool_decide_unpack in Hf. }
    unfold MAX_GUESSES.
    destruct (decide (length (guesses st) = 6)).
    + rewrite bool_decide_eq_true_2 by done. by eexists.
    + rewrite bool_decide_eq_false_2 by done. by eexists.
Qed.

Lemma checkWinLoss_decides_witness :
  let st := stateOf (submitGuess sampleRound) in
  ∃ st', checkWinLoss st = Returns st'
    ∧ gameState st' = Playing ∧ currentRow st' = 1.
Proof.
  intros st.
  destruct (checkWinLoss_decides st
              (GuessRecord "CATS" ["K"; "AE"; "T"; "S"; "IY"]
                 [Absent; Absent; Correct; Correct; Present])
              ["B"; "IY"; "T"; "S"; "Z"]
              ltac:(vm_compute; reflexivity) ltac:(vm_compute; reflexivity))
    as (st' & Hrun & _ & Hcase).
  exists st'. split; [exact Hrun|].
  rewrite decide_False in Hcase.
  - rewrite decide_False in Hcase by (vm_compute; discriminate).
    destruct Hcase as (? & ? & _). by split.
  - intros Hall. by apply Forall_cons_1 in Hall as [? _].
Defined.

(** C6. A non-empty guess that is not in the lexicon, or whose entry does
    not have five phonemes, makes [submitGuess] return normally with the
    error shown; the phase is unchanged, no guess is appended and the input
    buffer is empty. *)
Theorem submitGuess_rejects (st : state) :
  currentGuess st ≠ "" →
  (dictionary st !! currentGuess st = None
   ∨ ∃ ph, dictionary st !! currentGuess st = Some ph ∧ length ph ≠ 5) →
  ∃ st', submitGuess st = Returns st'
    ∧ messageBox st' =
        Some (match dictionary st !! currentGuess st with
              | None => WordNotInDictionary
              | Some ph => GuessMustHave5Sounds (length ph)
              end)
    ∧ gameState st' = gameState st
    ∧ guesses st' = guesses st
    ∧ currentGuess st' = ""
    ∧ phonemeStatus st' = phonemeStatus st
    ∧ currentRow st' = currentRow st.
Proof.
  intros Hne Hbad. unfold submitGuess.
  rewrite bool_decide_eq_false_2 by (by destruct (currentGuess st)).
  destruct Hbad as [->|(ph & -> & Hlen)].
  - by eexists.
  - rewrite bool_decide_eq_true_2 by done. by eexists.
Qed.

Lemma submitGuess_rejects_witness :
  ∃ st', submitGuess (set_currentGuess "ZZ" sampleRound) = Returns st'
    ∧ messageBox st' = Some WordNotInDictionary
    ∧ gameState st' = Playing ∧ guesses st' = [] ∧ currentGuess st' = "".
Proof.
  destruct (submitGuess_rejects (set_currentGuess "ZZ" sampleRound))
    as (st' & Hrun & Hmsg & Hphase & Hguesses & Hbuf & _).
  - discriminate.
  - left. reflexivity.
  - exists st'. repeat split; assumption.
Defined.

(** ** Reading a dictionary line *)

Global Arguments Text.isDigit : simpl never.

Section text_facts.

Import Text.
Implicit Types (s w p sep rest : string) (c : ascii).

Lemma app_cons c s rest : String c s +:+ rest = String c (s +:+ rest).
Proof. reflexivity. Qed.

Lemma app_empty_l s : "" +:+ s = s.
Proof. reflexivity. Qed.

Lemma app_empty_r s : s +:+ "" = s.
Proof. induction s as [|c s IH]; [done|]. by rewrite app_cons, IH. Qed.

Lemma app_assoc_str s1 s2 s3 : (s1 +:+ s2) +:+ s3 = s1 +:+ s2 +:+ s3.
Proof. induction s1 as [|c s1 IH]; [done|]. by rewrite !app_cons, IH. Qed.

Lemma allChars_app P s1 s2 :
  allChars P (s1 +:+ s2) = allChars P s1 && allChars P s2.
Proof.
  induction s1 as [|c s1 IH]; [done|].
  rewrite app_cons. simpl. by rewrite IH, andb_assoc.
Qed.

Lemma startsWith_app sep rest : startsWith sep (sep +:+ rest) = true.
Proof.
  induction sep as [|c sep IH]; [done|].
  rewrite app_cons. simpl. by rewrite decide_True.
Qed.

Lemma splitFrom_nonempty sep k s : splitFrom sep k s ≠ [].
Proof.
  revert k. induction s as [|c s IH]; intros k; [done|]. simpl.
  destruct k; [|apply IH].
  destruct (startsWith sep (String c s)); [done|].
  specialize (IH 0). by destruct (splitFrom sep 0 s).
Qed.

Lemma splitFrom_skip sep p rest :
  splitFrom sep (String.length p) (p +:+ rest) = splitFrom sep 0 rest.
Proof. induction p as [|c p IH]; [done|]. by rewrite app_cons. Qed.

(** At a match the current piece ends and the scan resumes behind it. *)
Lemma splitFrom_match c sep rest :
  splitFrom (String c sep) 0 (String c sep +:+ rest)
  = "" :: splitFrom (String c sep) 0 rest.
Proof.
  rewrite app_cons.
  change (splitFrom (String c sep) 0 (String c (sep +:+ rest)))
    with (if startsWith (String c sep) (String c (sep +:+ rest))
          then "" :: splitFrom (String c sep) (String.length (String c sep) - 1)
                               (sep +:+ rest)
          else consHead c (splitFrom (String c sep) 0 (sep +:+ rest))).
  rewrite <-app_cons, startsWith_app. simpl. rewrite Nat.sub_0_r.
  by rewrite splitFrom_skip.
Qed.

(** A text without the first character of the separator goes to the
    current piece. *)
Lemma splitFrom_word c0 sep w rest :
  allChars (λ c, negb (bool_decide (c = c0))) w →
  splitFrom (String c0 sep) 0 (w +:+ rest)
  = prependHead w (splitFrom (String c0 sep) 0 rest).
Proof.
  induction w as [|c w IH]; intros Hw.
  - pose proof (splitFrom_nonempty (String c0 sep) 0 rest).
    rewrite app_empty_l. by destruct (splitFrom _ 0 rest).
  - simpl in Hw. apply andb_True in Hw as [Hc Hw].
    apply negb_True in Hc. rewrite bool_decide_spec in Hc.
    rewrite app_cons. simpl. rewrite decide_False by done.
    rewrite IH by done.
    pose proof (splitFrom_nonempty (String c0 sep) 0 rest).
    by destruct (splitFrom _ 0 rest).
Qed.

Lemma removeDigits_app s1 s2 :
  removeDigits (s1 +:+ s2) = removeDigits s1 +:+ removeDigits s2.
Proof.
  induction s1 as [|c s1 IH]; [done|].
  rewrite app_cons. simpl. destruct (isDigit c); by rewrite IH.
Qed.

Lemma removeDigits_digitFree s : digitFree s → removeDigits s = s.
Proof.
  unfold digitFree. induction s as [|c s IH]; [done|]. simpl.
  intros [Hc Hs]%andb_True. unfold notDigit in Hc.
  destruct (isDigit c); [done|]. by rewrite IH.
Qed.

Lemma removeDigits_allDigits s : allDigits s → removeDigits s = "".
Proof.
  unfold allDigits. induction s as [|c s IH]; [done|]. simpl.
  intros [Hc Hs]%andb_True. destruct (isDigit c); [by apply IH|done].
Qed.

Lemma digitFree_removeDigits s : digitFree (removeDigits s).
Proof.
  unfold digitFree. induction s as [|c s IH]; [done|]. simpl.
  destruct (isDigit c) eqn:Hc; [done|]. simpl.
  unfold notDigit at 1. by rewrite Hc.
Qed.

(** The pieces of a split hold characters of the text only. *)
Lemma splitFrom_allChars P sep k s :
  allChars P s → Forall (λ p, allChars P p) (splitFrom sep k s).
Proof.
  revert k. induction s as [|c s IH]; intros k Hs.
  - by repeat constructor.
  - simpl in Hs. apply andb_True in Hs as [Hc Hs]. simpl.
    destruct k; [|by apply IH].
    destruct (startsWith sep (String c s)).
    + constructor; [done|by apply IH].
    + specialize (IH 0 Hs).
      destruct (splitFrom sep 0 s) as [|p ps]; simpl.
      * repeat constructor. simpl. by rewrite andb_True.
      * apply Forall_cons in IH as [Hp Hps].
        constructor; [|done]. simpl. by rewrite andb_True.
Qed.

End text_facts.

Section parse_facts.

Import Text.

(** What [parseLine] returns. *)
Lemma parseLine_Some line w ph :
  parseLine line = Some (w, ph) →
  ∃ rest, split "  " line = [w; rest]
          ∧ ph = filter (λ p, truthy p) (split " " (removeDigits rest)).
Proof.
  unfold parseLine. destruct (_ && _); [|done].
  destruct (split "  " line) as [|w' [|rest [|]]]; try done.
  intros [= <- <-]. by eexists.
Qed.

Lemma parseLine_clean line w ph :
  parseLine line = Some (w, ph) → Forall (λ p, cleanSymbol p) ph.
Proof.
  intros (rest & _ & ->)%parseLine_Some.
  apply Forall_forall. intros p [Hp Hin]%list_elem_of_filter.
  unfold cleanSymbol. apply andb_True. split; [done|].
  pose proof (splitFrom_allChars notDigit " " 0 (removeDigits rest)
                (digitFree_removeDigits rest)) as Hall.
  rewrite Forall_forall in Hall. by apply Hall.
Qed.

End parse_facts.

(** ** Well-formed records *)

Section record_facts.

Import Text.
Implicit Types (w t b : string) (ts bs : list string)
  (toks : list (string * string)).

Lemma splitFrom_0_cons sep c s :
  splitFrom sep 0 (String c s)
  = if startsWith sep (String c s)
    then "" :: splitFrom sep (String.length sep - 1) s
    else consHead c (splitFrom sep 0 s).
Proof. reflexivity. Qed.

Lemma join_cons_cons sep t t' ts :
  join sep (t :: t' :: ts) = t +:+ sep +:+ join sep (t' :: ts).
Proof. reflexivity. Qed.

Lemma solid_head t : solid t → ∃ c t', t = String c t' ∧ c ≠ " "%char.
Proof.
  destruct t as [|c t']; [done|]. intros [_ Hsp]%andb_True.
  unfold spaceFree in Hsp. simpl in Hsp. apply andb_True in Hsp as [Hc _].
  apply negb_True in Hc. rewrite bool_decide_spec in Hc. eauto.
Qed.

Lemma join_solid_head t ts :
  solid t → ∃ c rest, join " " (t :: ts) = String c rest ∧ c ≠ " "%char.
Proof.
  intros (c & t' & -> & Hc)%solid_head.
  destruct ts as [|t2 ts]; [by eauto|].
  rewrite join_cons_cons, app_cons. eauto.
Qed.

(** The two-space separator finds no match in a phoneme field, nor in a
    phoneme field behind one more space. *)
Lemma split_field ts :
  Forall (λ t, solid t) ts →
  splitFrom "  " 0 (join " " ts) = [join " " ts]
  ∧ splitFrom "  " 0 (" " +:+ join " " ts) = [" " +:+ join " " ts].
Proof.
  induction 1 as [|t ts Ht Hts [IH1 IH2]]; [done|].
  assert (splitFrom "  " 0 (join " " (t :: ts)) = [join " " (t :: ts)]) as Hfield.
  { apply andb_True in Ht as [_ Hsp].
    destruct ts as [|t2 ts].
    - rewrite <-(app_empty_r t) at 1. simpl join.
      rewrite (splitFrom_word " " " " t "") by done. simpl.
      by rewrite app_empty_r.
    - rewrite join_cons_cons.
      rewrite (splitFrom_word " " " " t) by done.
      by rewrite IH2. }
  split; [done|].
  destruct (join_solid_head t ts Ht) as (c & rest & Hjoin & Hc).
  rewrite Hjoin in *. rewrite app_cons, app_empty_l.
  assert (startsWith "  " (String " " (String c rest)) = false) as Hno.
  { simpl. by rewrite decide_False. }
  by rewrite splitFrom_0_cons, Hno, Hfield.
Qed.

(** The one-space separator cuts a phoneme field into its phonemes. *)
Lemma split_phonemes bs :
  Forall (λ b, solid b) bs →
  splitFrom " " 0 (join " " bs) = match bs with [] => [""] | _ => bs end.
Proof.
  induction 1 as [|b bs Hb Hbs IH]; [done|].
  apply andb_True in Hb as [_ Hsp].
  destruct bs as [|b2 bs].
  - rewrite <-(app_empty_r b) at 1. simpl join.
    rewrite (splitFrom_word " " "" b "") by done. simpl.
    by rewrite app_empty_r.
  - rewrite join_cons_cons.
    rewrite (splitFrom_word " " "" b) by done.
    rewrite (splitFrom_match " " ""), IH. simpl.
    by rewrite app_empty_r.
Qed.

Lemma filter_truthy_solid bs :
  Forall (λ b, solid b) bs → filter (λ p, truthy p) bs = bs.
Proof.
  induction 1 as [|b bs Hb Hbs IH]; [done|].
  apply andb_True in Hb as [Hb _].
  by rewrite filter_cons_True, IH.
Qed.

Lemma phonemes_of_field bs :
  Forall (λ b, solid b) bs →
  filter (λ p, truthy p) (split " " (join " " bs)) = bs
  ∧ filter (λ p, truthy p) (split " " (" " +:+ join " " bs)) = bs.
Proof.
  intros Hbs. unfold split.
  assert (filter (λ p, truthy p) (splitFrom " " 0 (join " " bs)) = bs) as Hfield.
  { rewrite split_phonemes by done.
    destruct bs as [|b bs]; [done|]. by apply filter_truthy_solid. }
  split; [done|].
  rewrite (splitFrom_match " " "").
  rewrite filter_cons_False; [done|]. intros [].
Qed.

Lemma phonemeToken_solid bd : phonemeToken bd → solid bd.1.
Proof.
  unfold phonemeToken, solid. rewrite !andb_True. tauto.
Qed.

Lemma allChars_impl (P Q : ascii → bool) s :
  (∀ c, P c → Q c) → allChars P s → allChars Q s.
Proof.
  intros HPQ. induction s as [|c s IH]; [done|]. simpl.
  rewrite !andb_True. intros [??]. auto.
Qed.

Lemma isDigit_notSpace c : isDigit c → notSpace c.
Proof.
  unfold notSpace. intros Hc. apply negb_True. rewrite bool_decide_spec.
  by intros ->.
Qed.

Lemma tokenText_solid bd : phonemeToken bd → solid (tokenText bd).
Proof.
  unfold phonemeToken, solid, tokenText. rewrite !andb_True.
  intros [[[Hne Hsp] _] Hd]. split.
  - by destruct (bd.1).
  - unfold spaceFree. rewrite allChars_app, andb_True. split; [done|].
    eapply allChars_impl; [apply isDigit_notSpace|done].
Qed.

Lemma removeDigits_tokenText bd :
  phonemeToken bd → removeDigits (tokenText bd) = bd.1.
Proof.
  unfold phonemeToken, tokenText. rewrite !andb_True.
  intros [[[_ _] Hb] Hd].
  rewrite removeDigits_app, removeDigits_digitFree, removeDigits_allDigits by done.
  apply app_empty_r.
Qed.

(** Without the digits the phoneme field is the field of the symbols. *)
Lemma removeDigits_field toks :
  Forall (λ bd, phonemeToken bd) toks →
  removeDigits (join " " (tokenText <$> toks)) = join " " (toks.*1).
Proof.
  induction 1 as [|bd toks Hbd Htoks IH]; [done|].
  destruct toks as [|bd2 toks].
  - by apply removeDigits_tokenText.
  - rewrite !fmap_cons, !join_cons_cons, !removeDigits_app.
    rewrite removeDigits_tokenText by done.
    by rewrite !fmap_cons in IH; rewrite IH.
Qed.

Lemma truthy_app_r s1 s2 : truthy s2 → truthy (s1 +:+ s2).
Proof. destruct s1; [done|]. by rewrite app_cons. Qed.

(** A record with a separator of two or of three spaces is read as the
    word and its symbols. *)
Lemma parseLine_record w k toks :
  spaceFree w → k = 2 ∨ k = 3 →
  Forall (λ bd, phonemeToken bd) toks →
  startsWith ";;;" (recordLine w k toks) = false →
  parseLine (recordLine w k toks) = Some (w, toks.*1).
Proof.
  intros Hw Hk Htoks Hcomment. unfold parseLine. rewrite Hcomment.
  assert (Forall (λ t, solid t) (tokenText <$> toks)) as Hsolid.
  { apply Forall_fmap. eapply Forall_impl; [done|]. apply tokenText_solid. }
  assert (Forall (λ b, solid b) (toks.*1)) as Hsyms.
  { apply Forall_fmap. eapply Forall_impl; [done|]. apply phonemeToken_solid. }
  destruct (split_field _ Hsolid) as [Hf2 Hf3].
  destruct (phonemes_of_field _ Hsyms) as [Hp2 Hp3].
  unfold recordLine in *.
  rewrite (Is_true_true_1 (truthy _)); last first.
  { apply truthy_app_r. by destruct Hk as [-> | ->]. }
  simpl. unfold split in *.
  rewrite (splitFrom_word " " " " w) by done.
  destruct Hk as [-> | ->].
  - change (spaces 2) with "  ".
    rewrite (splitFrom_match " " " "), Hf2.
    cbn [prependHead]. rewrite app_empty_r. cbv beta iota zeta.
    by rewrite removeDigits_field, Hp2.
  - change (spaces 3 +:+ ?f) with ("  " +:+ " " +:+ f).
    rewrite (splitFrom_match " " " "), Hf3.
    cbn [prependHead]. rewrite app_empty_r. cbv beta iota zeta.
    rewrite removeDigits_app, removeDigits_field by done.
    change (removeDigits " ") with " ".
    by rewrite Hp3.
Qed.

(** With four or more spaces the separator is matched twice and the line
    has more than two parts. *)
Lemma parseLine_wide_separator w k toks :
  spaceFree w → 4 ≤ k → parseLine (recordLine w k toks) = None.
Proof.
  intros Hw Hk. unfold parseLine, recordLine.
  destruct (truthy _ && negb _); [|done].
  do 4 (destruct k as [|k]; [lia|]).
  change (spaces (S (S (S (S k)))) +:+ ?f) with ("  " +:+ "  " +:+ spaces k +:+ f).
  unfold split. rewrite (splitFrom_word " " " " w) by done.
  rewrite !(splitFrom_match " " " ").
  pose proof (splitFrom_nonempty "  " 0
                (spaces k +:+ join " " (tokenText <$> toks))) as Hne.
  by destruct (splitFrom "  " 0 _).
Qed.

End record_facts.

(** ** The loader *)

Section loader_facts.

Implicit Types (st : state) (acc : state * list string)
  (lines : list string) (recs : list (string * list string)).

Lemma handleKeydown_loading key r st :
  gameState st = Loading → handleKeydown key r st = Returns st.
Proof.
  intros Hst. unfold handleKeydown. rewrite Hst.
  rewrite bool_decide_eq_false_2 by (by intros [? _]).
  by rewrite bool_decide_eq_true_2.
Qed.

Lemma deliver_loading ks st : gameState st = Loading → deliver ks st = st.
Proof.
  intros Hst. unfold deliver. induction ks as [|k ks IH]; [done|].
  simpl. by rewrite handleKeydown_loading.
Qed.

Lemma storeRecord_gameState w ph acc :
  gameState (storeRecord w ph acc).1 = gameState acc.1.
Proof.
  destruct acc as [st pset]. unfold storeRecord. simpl.
  by destruct (_ && _).
Qed.

Lemma processLine_gameState acc line :
  gameState (processLine acc line).1 = gameState acc.1.
Proof.
  unfold processLine. destruct (parseLine line) as [[w ph]|]; [|done].
  apply storeRecord_gameState.
Qed.

Lemma processLines_gameState lines acc :
  gameState (foldl processLine acc lines).1 = gameState acc.1.
Proof.
  revert acc. induction lines as [|line lines IH]; intros acc; [done|].
  simpl. by rewrite IH, processLine_gameState.
Qed.

(** The loop over a range of indices visits the lines of that range. *)
Lemma processRange_lines lines index n acc :
  foldl (λ acc i, match lines !! i with
                  | Some line => processLine acc line
                  | None => acc
                  end) acc (seq index n)
  = foldl processLine acc (take n (drop index lines)).
Proof.
  revert index acc. induction n as [|n IH]; intros index acc; [done|].
  simpl seq. simpl foldl at 1. rewrite IH.
  destruct (lines !! index) as [line|] eqn:Hline.
  - by rewrite (drop_S _ _ _ Hline).
  - apply lookup_ge_None in Hline.
    rewrite !drop_ge by lia. by rewrite !take_nil.
Qed.

Section chunks.

Variable lines : list string.
Variable linesPerFrame r : nat.
Variable keys : nat → list (string * nat).

(** What loading computes when it finishes. *)
Lemma chunk_sound turns index acc out :
  gameState acc.1 = Loading →
  processDictionaryChunk lines linesPerFrame r keys turns index acc = Some out →
  out = finishLoading (foldl processLine acc (drop index lines)).2 r
                      (foldl processLine acc (drop index lines)).1.
Proof.
  revert index acc. induction turns as [|turns IH]; intros index acc Hst; [done|].
  simpl. unfold processRange. rewrite processRange_lines.
  set (endIndex := (index + linesPerFrame) `min` length lines).
  pose proof (processLines_gameState
                (take (endIndex - index) (drop index lines)) acc) as Hst'.
  rewrite Hst in Hst'.
  case_bool_decide as Hend.
  - rewrite deliver_loading by done.
    intros Hrun. apply IH in Hrun; [|done].
    rewrite Hrun, <-surjective_pairing, <-foldl_app.
    assert (endIndex = index + (endIndex - index)) as Hsplit by lia.
    rewrite Hsplit at 2 4. rewrite <-drop_drop.
    by rewrite take_drop.
  - intros [= <-].
    rewrite take_ge; [done|]. rewrite length_drop. lia.
Qed.

(** Loading finishes when every turn takes at least one line. *)
Lemma chunk_terminates turns index acc :
  0 < linesPerFrame → length lines - index < turns →
  is_Some (processDictionaryChunk lines linesPerFrame r keys turns index acc).
Proof.
  intros Hpos. revert index acc.
  induction turns as [|turns IH]; intros index acc Hturns; [lia|].
  simpl. case_bool_decide as Hend; [|by eexists].
  apply IH. lia.
Qed.

(** With a batch size of 0 the loader makes no progress. *)
Lemma chunk_zero_stalls turns index acc :
  linesPerFrame = 0 → index < length lines → gameState acc.1 = Loading →
  processDictionaryChunk lines linesPerFrame r keys turns index acc = None.
Proof.
  intros Hzero Hindex. revert acc.
  induction turns as [|turns IH]; intros acc Hst; [done|].
  simpl. rewrite Hzero, Nat.add_0_r.
  rewrite Nat.min_l by lia.
  rewrite bool_decide_eq_true_2 by done.
  unfold processRange. rewrite Nat.sub_diag. simpl.
  rewrite deliver_loading by done.
  rewrite <-surjective_pairing. rewrite <-Hzero at 1. by apply IH.
Qed.

End chunks.

(** The candidate list and the lexicon map after a run of lines. *)
Lemma processLine_frequencySet acc line :
  frequencySet (processLine acc line).1 = frequencySet acc.1.
Proof.
  unfold processLine. destruct (parseLine line) as [[w ph]|]; [|done].
  destruct acc as [st pset]. unfold storeRecord. simpl. by destruct (_ && _).
Qed.

Lemma processLines_wordlist lines acc :
  wordlist (foldl processLine acc lines).1
  = wordlist acc.1 ++ candidates (frequencySet acc.1) (records lines).
Proof.
  unfold candidates, records. revert acc.
  induction lines as [|line lines IH]; intros acc.
  - simpl. by rewrite app_nil_r.
  - simpl. rewrite IH, processLine_frequencySet.
    unfold processLine. destruct (parseLine line) as [[w ph]|]; [|done].
    destruct acc as [st pset]. unfold storeRecord. simpl.
    rewrite filter_cons. simpl.
    destruct (decide (length ph = 5 ∧ w ∈ frequencySet st)) as [[H5 Hin]|Hno].
    + rewrite !bool_decide_eq_true_2 by done. simpl.
      by rewrite <-app_assoc.
    + destruct (bool_decide (length ph = 5)) eqn:H5; [|done].
      destruct (bool_decide (w ∈ frequencySet st)) eqn:Hin; [|done].
      apply bool_decide_eq_true in H5, Hin. tauto.
  Qed.

Lemma processLines_dictionary lines acc :
  dictionary (foldl processLine acc lines).1
  = foldl (λ d wp, <[wp.1 := wp.2]> d) (dictionary acc.1) (records lines).
Proof.
  unfold records. revert acc.
  induction lines as [|line lines IH]; intros acc; [done|].
  simpl. rewrite IH. unfold processLine.
  destruct (parseLine line) as [[w ph]|]; [|done].
  destruct acc as [st pset]. unfold storeRecord. simpl. by destruct (_ && _).
Qed.

(** Last write wins. *)
Lemma foldl_insert_last recs (d : gmap string (list string)) w :
  foldl (λ d wp, <[wp.1 := wp.2]> d) d recs !! w
  = match last (filter (λ wp, wp.1 = w) recs) with
    | Some wp => Some wp.2
    | None => d !! w
    end.
Proof.
  revert d. induction recs as [|[w' ph] recs IH]; intros d; [done|].
  simpl. rewrite IH, filter_cons. simpl.
  destruct (decide (w' = w)) as [->|Hne].
  - destruct (filter _ recs) as [|wp l] eqn:Hf; simpl.
    + by rewrite lookup_insert_eq.
    + destruct (last (wp :: l)) eqn:Hlast; [done|].
      by apply last_None in Hlast.
  - destruct (last (filter _ recs)); [done|]. by rewrite lookup_insert_ne.
Qed.

End loader_facts.

(** ** What loading stores *)

Section stored_symbols.

Implicit Types (st : state) (acc : state * list string).

Lemma setAdd_clean pset p :
  Forall (λ p, cleanSymbol p) pset → cleanSymbol p →
  Forall (λ p, cleanSymbol p) (setAdd pset p).
Proof.
  intros Hpset Hp. unfold setAdd. case_decide; [done|].
  apply Forall_app. by repeat constructor.
Qed.

Lemma processLine_lexiconClean acc line :
  lexiconClean acc → lexiconClean (processLine acc line).
Proof.
  intros [Hdict Hpset]. unfold processLine.
  destruct (parseLine line) as [[w ph]|] eqn:Hparse; [|done].
  apply parseLine_clean in Hparse.
  destruct acc as [st pset]. unfold lexiconClean, storeRecord. simpl in *.
  split.
  - destruct (_ && _); simpl; by apply map_Forall_insert_2.
  - clear Hdict. revert pset Hpset.
    induction Hparse as [|p ph Hp Hph IH]; intros pset Hpset; [done|].
    simpl. by apply IH, setAdd_clean.
Qed.

Lemma processLines_lexiconClean lines acc :
  lexiconClean acc → lexiconClean (foldl processLine acc lines).
Proof.
  revert acc. induction lines as [|line lines IH]; intros acc Hacc; [done|].
  simpl. by apply IH, processLine_lexiconClean.
Qed.

(** [startGame] leaves what loading has built as it is. *)
Lemma startGame_lexicon r st :
  let st' := stateOf (startGame r st) in
  dictionary st' = dictionary st ∧ wordlist st' = wordlist st
  ∧ allPhonemesSorted st' = allPhonemesSorted st
  ∧ frequencySet st' = frequencySet st.
Proof.
  unfold startGame. simpl.
  by destruct (dictionary st !! propertyKey (wordlist st !! r)).
Qed.

Lemma records_clean lines :
  Forall (λ wp, Forall (λ p, cleanSymbol p) wp.2) (records lines).
Proof.
  unfold records. induction lines as [|line lines IH]; [done|].
  simpl. destruct (parseLine line) as [[w ph]|] eqn:Hparse; [|done].
  simpl. constructor; [|done]. by apply parseLine_clean in Hparse.
Qed.

End stored_symbols.

(** C5. For every dictionary text and every batch size of at least one
    line, loading in chunks, with key presses handled between the chunks,
    ends with the same result as processing all lines in a single pass:
    the same lexicon map, sorted alphabet and candidate list (and the same
    outcome of the first [startGame]). *)
Theorem chunked_load_is_single_pass (dictText : string)
    (linesPerFrame r : nat) (keys : nat → list (string * nat))
    (turns : nat) (st : state) :
  0 < linesPerFrame →
  gameState st = Loading →
  length (Text.split newline dictText) < turns →
  ∃ out, loadGameData dictText linesPerFrame r keys turns st = Some out
    ∧ out = loadSinglePass dictText r st
    ∧ dictionary (stateOf out) = dictionary (stateOf (loadSinglePass dictText r st))
    ∧ allPhonemesSorted (stateOf out)
      = allPhonemesSorted (stateOf (loadSinglePass dictText r st))
    ∧ wordlist (stateOf out) = wordlist (stateOf (loadSinglePass dictText r st)).
Proof.
  intros Hpos Hst Hturns. unfold loadGameData.
  destruct (chunk_terminates (Text.split newline dictText) linesPerFrame r keys
              turns 0 (st, []) Hpos) as [out Hout]; [lia|].
  exists out. split; [exact Hout|].
  assert (out = loadSinglePass dictText r st) as ->.
  { apply chunk_sound in Hout; [|exact Hst].
    rewrite drop_0 in Hout. unfold loadSinglePass. exact Hout. }
  repeat split; reflexivity.
Qed.

Lemma chunked_load_is_single_pass_witness :
  ∃ out,
    loadGameData sampleDictionary 3 0 (λ _, [("Enter", 0); ("a", 0)]) 5
      (initial {["CATSY"; "BEETSY"]}) = Some out
    ∧ out = loadSinglePass sampleDictionary 0 (initial {["CATSY"; "BEETSY"]}).
Proof.
  destruct (chunked_load_is_single_pass sampleDictionary 3 0
              (λ _, [("Enter", 0); ("a", 0)]) 5
              (initial {["CATSY"; "BEETSY"]}))
    as (out & Hrun & Hsame & _).
  - lia.
  - reflexivity.
  - vm_compute. lia.
  - exists out. split; assumption.
Defined.

(** C7, as stated: a record whose separator has four spaces is a
    non-comment line made of a word, a separator of two or more spaces and
    a phoneme field, and nothing is stored for it. *)
Lemma four_space_separator_not_stored :
  recordLine "AB" 4 [("K", ""); ("AE", "1")] = "AB    K AE1"
  ∧ Text.startsWith ";;;" "AB    K AE1" = false
  ∧ parseLine "AB    K AE1" = None
  ∧ dictionary (processLine (initial ∅, []) "AB    K AE1").1 !! "AB" = None.
Proof. repeat split; vm_compute; reflexivity. Qed.

(** C7, amended. For every non-comment line made of a word without
    spaces, a separator of two or of three spaces and phonemes with one
    space between them, each a symbol followed by stress digits, the
    parser stores the word with the sequence of the symbols, the stress
    digits removed.  With a separator of four or more spaces the line is
    skipped. *)
Theorem record_line_stored (w : string) (k : nat)
    (toks : list (string * string)) (acc : state * list string) :
  spaceFree w → k = 2 ∨ k = 3 →
  Forall (λ bd, phonemeToken bd) toks →
  Text.startsWith ";;;" (recordLine w k toks) = false →
  parseLine (recordLine w k toks) = Some (w, toks.*1)
  ∧ dictionary (processLine acc (recordLine w k toks)).1 !! w = Some (toks.*1)
  ∧ ∀ k', 4 ≤ k' → processLine acc (recordLine w k' toks) = acc.
Proof.
  intros Hw Hk Htoks Hcomment.
  pose proof (parseLine_record w k toks Hw Hk Htoks Hcomment) as Hparse.
  split; [done|]. split.
  - unfold processLine. rewrite Hparse.
    destruct acc as [st pset]. unfold storeRecord. simpl.
    destruct (_ && _); simpl; by rewrite lookup_insert_eq.
  - intros k' Hk'. unfold processLine.
    by rewrite parseLine_wide_separator.
Qed.

Lemma record_line_stored_witness :
  parseLine "CATSY   K AE1 T S IY0" = Some ("CATSY", ["K"; "AE"; "T"; "S"; "IY"])
  ∧ dictionary (processLine (initial ∅, []) "CATSY   K AE1 T S IY0").1 !! "CATSY"
    = Some ["K"; "AE"; "T"; "S"; "IY"].
Proof.
  destruct (record_line_stored "CATSY" 3
              [("K", ""); ("AE", "1"); ("T", ""); ("S", ""); ("IY", "0")]
              (initial ∅, [])) as (Hparse & Hstored & _).
  - reflexivity.
  - by right.
  - repeat constructor.
  - reflexivity.
  - split; [exact Hparse|exact Hstored].
Defined.

Section loaded.

(** The state and the alphabet set at the call of [finishLoading], for a
    load from the initial state that has finished. *)
Lemma loadGameData_finished dictText linesPerFrame r keys turns freq out :
  loadGameData dictText linesPerFrame r keys turns (initial freq) = Some out →
  out = loadSinglePass dictText r (initial freq).
Proof.
  unfold loadGameData, loadSinglePass. intros Hout.
  apply chunk_sound in Hout; [|done]. by rewrite drop_0 in Hout.
Qed.

Lemma loadSinglePass_lexicon dictText r st :
  let lines := Text.split newline dictText in
  let out := loadSinglePass dictText r st in
  dictionary (stateOf out) = dictionary (foldl processLine (st, []) lines).1
  ∧ wordlist (stateOf out) = wordlist (foldl processLine (st, []) lines).1
  ∧ allPhonemesSorted (stateOf out)
    = sortStrings (foldl processLine (st, []) lines).2.
Proof.
  intros lines out. unfold out, loadSinglePass, finishLoading. fold lines.
  destruct (startGame_lexicon r
              (set_allPhonemesSorted
                 (sortStrings (foldl processLine (st, []) lines).2)
                 (foldl processLine (st, []) lines).1))
    as (-> & -> & -> & _).
  done.
Qed.

End loaded.

(** C8, as stated: a spelling on two data lines is twice in the candidate
    list. *)
Lemma duplicate_spelling_listed_twice :
  ∃ out,
    loadGameData ("CATSY  K AE1 T S IY0" +:+ newline +:+ "CATSY  K AE1 T S IY0")
      LINES_PER_FRAME 0 noKeys 1 (initial {["CATSY"]}) = Some out
    ∧ wordlist (stateOf out) = ["CATSY"; "CATSY"]
    ∧ dictionary (stateOf out) !! "CATSY" = Some ["K"; "AE"; "T"; "S"; "IY"].
Proof. eexists. split; [vm_compute; reflexivity|]. split; vm_compute; reflexivity. Qed.

(** C8, amended. The lexicon map keeps, for every word, the phonemes of
    the last data line with that spelling.  The candidate list is not
    de-duplicated: it holds the word of every data line with five phonemes
    whose word is in the frequency set, in file order, so a word is in it
    once for every such line; it has no duplicates when no spelling is on
    two data lines. *)
Theorem candidate_list_follows_records (dictText : string)
    (linesPerFrame r : nat) (keys : nat → list (string * nat)) (turns : nat)
    (freq : gset string) (out : outcome) (w : string) :
  loadGameData dictText linesPerFrame r keys turns (initial freq) = Some out →
  let recs := records (Text.split newline dictText) in
  dictionary (stateOf out) !! w = snd <$> last (filter (λ wp, wp.1 = w) recs)
  ∧ wordlist (stateOf out) = candidates freq recs
  ∧ (NoDup (recs.*1) → NoDup (wordlist (stateOf out))).
Proof.
  intros Hout recs. apply loadGameData_finished in Hout. subst out.
  destruct (loadSinglePass_lexicon dictText r (initial freq)) as (-> & -> & _).
  rewrite processLines_dictionary, processLines_wordlist. fold recs. simpl.
  split; [|split; [done|]].
  - rewrite foldl_insert_last, lookup_empty.
    by destruct (last _).
  - intros Hrecs. eapply sublist_NoDup; [done|].
    unfold candidates. apply fmap_sublist, sublist_filter.
Qed.

Lemma candidate_list_follows_records_witness :
  ∃ out,
    loadGameData sampleDictionary 2 0 noKeys 5 (initial {["CATSY"; "BEETSY"]})
      = Some out
    ∧ dictionary (stateOf out) !! "CAB" = Some ["K"; "AE"; "B"]
    ∧ wordlist (stateOf out) = ["CATSY"; "BEETSY"]
    ∧ NoDup (wordlist (stateOf out)).
Proof.
  eexists. split; [vm_compute; reflexivity|].
  match goal with
  | |- context [stateOf ?o] =>
      destruct (candidate_list_follows_records sampleDictionary 2 0 noKeys 5
                  {["CATSY"; "BEETSY"]} o "CAB") as (Hdict & Hlist & Hnodup)
  end.
  - vm_compute. reflexivity.
  - split; [|split].
    + rewrite Hdict. vm_compute. reflexivity.
    + rewrite Hlist. vm_compute. reflexivity.
    + apply Hnodup.
      refine (bool_decide_unpack (NoDup ["CAB"; "CATSY"; "BEETSY"]) _).
      vm_compute. exact I.
Defined.

(** C9, as stated: a dictionary whose only word is the lower-case
    "undefined" gives an empty candidate list, and the load ends with a
    round started on an undefined target word. *)
Lemma empty_candidates_round_started :
  ∃ st',
    loadGameData "undefined  AH0 N D IH0 F AY1 N D" LINES_PER_FRAME 0 noKeys 1
      (initial ∅) = Some (Returns st')
    ∧ wordlist st' = []
    ∧ gameState st' = Playing
    ∧ targetWord st' = None
    ∧ targetPhonemes st' = Some ["AH"; "N"; "D"; "IH"; "F"; "AY"; "N"; "D"].
Proof. eexists. split; [vm_compute; reflexivity|]. repeat split. Qed.

(** With an empty candidate list and no entry under "undefined",
    [startGame] stops at the undefined pronunciation of the target; the
    phase is not changed. *)
Lemma finishLoading_empty_throws phonemeSet r st :
  wordlist st = [] → dictionary st !! "undefined" = None →
  ∃ st', finishLoading phonemeSet r st = Throws TypeError st'
         ∧ gameState st' = gameState st.
Proof.
  intros Hempty Hundef. unfold finishLoading, startGame. simpl.
  rewrite Hempty. simpl. rewrite Hundef. by eexists.
Qed.

Lemma finishLoading_wordlist phonemeSet r st :
  wordlist (stateOf (finishLoading phonemeSet r st)) = wordlist st.
Proof.
  unfold finishLoading.
  destruct (startGame_lexicon r
              (set_allPhonemesSorted (sortStrings phonemeSet) st))
    as (_ & Hlist & _).
  exact Hlist.
Qed.

(** C9, amended. If the candidate list is empty when loading completes
    and no record of the dictionary is spelled "undefined", the load ends
    in an error, the exception that [startGame] raises on the undefined
    target, and no round is started: the phase stays loading, the candidate
    list stays empty and no key press has an effect. *)
Theorem empty_candidates_no_round (dictText : string)
    (linesPerFrame r : nat) (keys : nat → list (string * nat)) (turns : nat)
    (freq : gset string) :
  0 < linesPerFrame →
  length (Text.split newline dictText) < turns →
  candidates freq (records (Text.split newline dictText)) = [] →
  "undefined" ∉ (records (Text.split newline dictText)).*1 →
  ∃ st',
    loadGameData dictText linesPerFrame r keys turns (initial freq)
    = Some (Throws TypeError st')
    ∧ gameState st' = Loading
    ∧ wordlist st' = []
    ∧ ∀ ks, deliver ks st' = st'.
Proof.
  intros Hpos Hturns Hempty Hundef.
  assert (is_Some (loadGameData dictText linesPerFrame r keys turns
                     (initial freq))) as [out Hout].
  { unfold loadGameData. apply chunk_terminates; [exact Hpos|lia]. }
  rewrite Hout.
  apply loadGameData_finished in Hout. subst out. unfold loadSinglePass.
  cbv zeta.
  pose proof (processLines_wordlist (Text.split newline dictText)
                (initial freq, [])) as Hlist.
  pose proof (processLines_dictionary (Text.split newline dictText)
                (initial freq, [])) as Hdict.
  pose proof (processLines_gameState (Text.split newline dictText)
                (initial freq, [])) as Hphase.
  destruct (foldl processLine (initial freq, []) (Text.split newline dictText))
    as [st pset].
  cbn [fst snd initial wordlist frequencySet dictionary gameState app]
    in Hlist, Hdict, Hphase |- *.
  rewrite Hempty in Hlist.
  assert (dictionary st !! "undefined" = None) as Hnone.
  { rewrite Hdict, foldl_insert_last.
    destruct (last _) as [wp|] eqn:Hlast; [|apply lookup_empty].
    apply last_Some_elem_of, list_elem_of_filter in Hlast as [Hw Hin].
    destruct Hundef. apply list_elem_of_fmap. exists wp. by split. }
  destruct (finishLoading_empty_throws pset r st Hlist Hnone)
    as (st' & Hrun & Hphase').
  pose proof (finishLoading_wordlist pset r st) as Hlist'.
  rewrite Hrun in Hlist' |- *. cbn [stateOf] in Hlist'.
  exists st'. split; [reflexivity|].
  split; [congruence|]. split; [congruence|].
  intros ks. apply deliver_loading. congruence.
Qed.

Lemma empty_candidates_no_round_witness :
  ∃ st',
    loadGameData sampleDictionary 2 0 noKeys 5 (initial ∅)
    = Some (Throws TypeError st')
    ∧ gameState st' = Loading
    ∧ deliver [("Enter", 0); ("a", 0)] st' = st'.
Proof.
  destruct (empty_candidates_no_round sampleDictionary 2 0 noKeys 5 ∅)
    as (st' & Hrun & Hphase & _ & Hkeys).
  - lia.
  - vm_compute. lia.
  - vm_compute. reflexivity.
  - apply (bool_decide_unpack _). vm_compute. exact I.
  - exists st'. split; [exact Hrun|]. split; [exact Hphase|]. apply Hkeys.
Defined.

(** C10. For every dictionary record that is parsed, every phoneme symbol
    that is stored in the lexicon entry and added to the alphabet is a
    non-empty string without digits: the digits are removed wherever they
    stand in the phoneme field, and the pieces that are empty after that
    are dropped. *)
Theorem stored_symbols_clean (dictText : string)
    (linesPerFrame r : nat) (keys : nat → list (string * nat)) (turns : nat)
    (freq : gset string) (out : outcome) :
  loadGameData dictText linesPerFrame r keys turns (initial freq) = Some out →
  map_Forall (λ _ ph, Forall (λ p, cleanSymbol p) ph) (dictionary (stateOf out))
  ∧ Forall (λ p, cleanSymbol p) (allPhonemesSorted (stateOf out))
  ∧ Forall (λ wp, Forall (λ p, cleanSymbol p) wp.2)
           (records (Text.split newline dictText)).
Proof.
  intros Hout. apply loadGameData_finished in Hout. subst out.
  destruct (loadSinglePass_lexicon dictText r (initial freq)) as (-> & _ & ->).
  destruct (processLines_lexiconClean (Text.split newline dictText)
              (initial freq, [])) as [Hdict Hpset].
  { split; [apply map_Forall_empty|done]. }
  split; [done|]. split.
  - unfold sortStrings. by rewrite merge_sort_Permutation.
  - apply records_clean.
Qed.

Lemma stored_symbols_clean_witness :
  ∃ out,
    loadGameData ("A1B  K2AE1 9  T" +:+ newline +:+ "CAB   K AE1 2 B") 1 0
      noKeys 3 (initial ∅) = Some out
    ∧ dictionary (stateOf out) !! "CAB" = Some ["K"; "AE"; "B"]
    ∧ allPhonemesSorted (stateOf out) = ["AE"; "B"; "K"]
    ∧ Forall (λ p, cleanSymbol p) (allPhonemesSorted (stateOf out)).
Proof.
  eexists. split; [vm_compute; reflexivity|].
  split; [vm_compute; reflexivity|]. split; [vm_compute; reflexivity|].
  match goal with
  | |- context [stateOf ?o] =>
      destruct (stored_symbols_clean
                  ("A1B  K2AE1 9  T" +:+ newline +:+ "CAB   K AE1 2 B") 1 0
                  noKeys 3 ∅ o) as (_ & Halpha & _)
  end.
  - vm_compute. reflexivity.
  - exact Halpha.
Defined.

(** * Further properties *)

(** ** The feedback, position by position *)

Section marking_facts.

Variable s : string.

Implicit Types (G : list string) (fb : list status) (tt : list (option string)).

(** Marking a position that was absent adds one marking of its symbol. *)
Lemma marked_insert_eq G fb i g v :
  G !! i = Some g → fb !! i = Some Absent → isMark v →
  marked s G (<[i := v]> fb) = marked s G fb + weight s g.
Proof.
  unfold marked, weight, isMark.
  revert fb i. induction G as [|g0 G IH]; intros fb i Hi Hfb Hv; [done|].
  destruct fb as [|f fb]; [done|].
  destruct i as [|i]; simpl in *.
  - simplify_eq. rewrite !filter_cons. simpl.
    repeat case_decide; simpl; try lia; destruct_and?; try tauto;
      destruct_or?; congruence.
  - specialize (IH fb i Hi Hfb Hv). rewrite !filter_cons. simpl.
    repeat case_decide; simpl; lia.
Qed.

Lemma marked_le_occurrences G fb : marked s G fb ≤ occurrences s G.
Proof.
  unfold marked, occurrences.
  revert fb. induction G as [|g G IH]; intros [|f fb]; try (simpl; lia).
  specialize (IH fb). simpl. rewrite !filter_cons. simpl.
  repeat case_decide; simpl; try lia; tauto.
Qed.

(** Either every position of [s] is marked, or one of them is not. *)
Lemma marked_or_unmarked G fb :
  length fb = length G →
  marked s G fb = occurrences s G
  ∨ ∃ i f, G !! i = Some s ∧ fb !! i = Some f ∧ ¬ isMark f.
Proof.
  unfold marked, occurrences, isMark.
  revert fb. induction G as [|g G IH]; intros [|f fb] Hlen; try done; [by left|].
  simpl in Hlen. destruct (IH fb) as [Heq|(i & f' & ? & ? & ?)]; [lia| |].
  - simpl. rewrite !filter_cons. simpl.
    destruct (decide (g = s)) as [->|Hne].
    + destruct (decide (f = Correct ∨ f = Present)) as [Hf|Hf].
      * left. rewrite decide_True by done. simpl. by rewrite Heq.
      * right. exists 0, f. done.
    + left. rewrite decide_False by tauto. done.
  - right. exists (S i), f'. done.
Qed.

Lemma marked_positive G fb i f :
  G !! i = Some s → fb !! i = Some f → isMark f → 0 < marked s G fb.
Proof.
  unfold marked, isMark.
  revert fb i. induction G as [|g G IH]; intros [|f0 fb] i Hi Hfb Hf; try done.
  destruct i as [|i]; simpl in *.
  - simplify_eq. rewrite filter_cons. simpl.
    rewrite decide_True by done. simpl. lia.
  - specialize (IH fb i Hi Hfb Hf). rewrite filter_cons.
    case_decide; simpl; lia.
Qed.

Lemma indexOf_None tt : indexOf s tt = None → remaining s tt = 0.
Proof.
  unfold remaining. induction tt as [|slot tt IH]; [done|]. simpl.
  case_decide; [done|]. rewrite filter_cons_False by done.
  destruct (indexOf s tt); [done|]. auto.
Qed.

Lemma occurrences_positive T : 0 < occurrences s T → s ∈ T.
Proof.
  unfold occurrences. intros Hpos.
  destruct (filter (λ t, t = s) T) as [|t l] eqn:Hf; [simpl in Hpos; lia|].
  assert (t ∈ filter (λ t, t = s) T) as Hin by (rewrite Hf; left).
  apply list_elem_of_filter in Hin as [-> ?]. done.
Qed.

End marking_facts.

Section feedback_facts.

Variables G T : list string.

Implicit Types (i j n : nat) (s g : string) (fb : list status)
  (tt : list (option string)).

Lemma evaluate_afterSecond : evaluate G T = (afterSecond G T 5).1.
Proof. unfold evaluate, afterSecond, afterFirst. reflexivity. Qed.

Lemma afterFirst_S n :
  afterFirst G T (S n) = firstPassStep G (afterFirst G T n) n.
Proof. unfold afterFirst. by rewrite seq_S, foldl_app. Qed.

Lemma afterSecond_S n :
  afterSecond G T (S n) = secondPassStep G (afterSecond G T n) n.
Proof. unfold afterSecond. by rewrite seq_S, foldl_app. Qed.

Lemma five_absent i :
  i < 5 → [Absent; Absent; Absent; Absent; Absent] !! i = Some Absent.
Proof. intros Hi. by do 5 (destruct i as [|i]; [done|]); lia. Qed.

(** The first loop, turn by turn: the positions not yet visited are
    untouched, a visited position is correct and consumed where guess and
    target agree, and as before elsewhere. *)
Lemma afterFirst_spec n :
  n ≤ 5 →
  length (afterFirst G T n).1 = 5
  ∧ (∀ i, n ≤ i →
       (afterFirst G T n).1 !! i = [Absent; Absent; Absent; Absent; Absent] !! i
       ∧ (afterFirst G T n).2 !! i = (Some <$> T) !! i)
  ∧ (∀ i, i < n →
       if decide (matchAt G T i)
       then (afterFirst G T n).1 !! i = Some Correct
            ∧ (afterFirst G T n).2 !! i = Some None
       else (afterFirst G T n).1 !! i = Some Absent
            ∧ (afterFirst G T n).2 !! i = (Some <$> T) !! i).
Proof.
  induction n as [|n IH]; intros Hn.
  { split; [done|]. split; [done|]. intros i Hi. lia. }
  destruct IH as (Hlen & Hrest & Hdone); [lia|].
  rewrite afterFirst_S.
  destruct (afterFirst G T n) as [fb tt]. simpl in *.
  destruct (Hrest n) as [Hfbn Httn]; [lia|].
  rewrite five_absent in Hfbn by lia.
  rewrite list_lookup_fmap in Httn.
  unfold firstPassStep.
  assert (∀ i, i < n →
            if decide (matchAt G T i)
            then fb !! i = Some Correct ∧ tt !! i = Some None
            else fb !! i = Some Absent ∧ tt !! i = (Some <$> T) !! i)
    as Hdone' by done.
  destruct (G !! n) as [g|] eqn:Hg; last first.
  { split; [done|]. split; [intros i Hi; apply Hrest; lia|].
    intros i Hi. destruct (decide (i = n)) as [->|]; [|apply Hdone'; lia].
    rewrite decide_False; [by rewrite list_lookup_fmap|].
    intros [[? Hs] _]. congruence. }
  rewrite Httn.
  destruct (T !! n) as [t|] eqn:Ht; simpl; last first.
  { split; [done|]. split; [intros i Hi; apply Hrest; lia|].
    intros i Hi. destruct (decide (i = n)) as [->|]; [|apply Hdone'; lia].
    rewrite decide_False; [by rewrite list_lookup_fmap, Ht|].
    intros [_ Heq]. congruence. }
  destruct (decide (g = t)) as [->|Hne]; simpl.
  - rewrite length_insert. split; [done|]. split.
    + intros i Hi. rewrite !list_lookup_insert_ne by lia. apply Hrest. lia.
    + intros i Hi. destruct (decide (i = n)) as [->|].
      * rewrite decide_True by (split; [by eexists|congruence]).
        rewrite !list_lookup_insert_eq; [done| |lia].
        apply lookup_lt_is_Some. rewrite Httn. by eexists.
      * rewrite !list_lookup_insert_ne by lia. apply Hdone'. lia.
  - split; [done|]. split; [intros i Hi; apply Hrest; lia|].
    intros i Hi. destruct (decide (i = n)) as [->|]; [|apply Hdone'; lia].
    rewrite decide_False; [by rewrite list_lookup_fmap, Ht|].
    intros [_ Heq]. congruence.
Qed.

(** The first loop keeps the count exact: marked positions of a symbol
    and slots still holding it add up to its occurrences in the target. *)
Lemma afterFirst_exact n s :
  n ≤ 5 →
  marked s G (afterFirst G T n).1 + remaining s (afterFirst G T n).2
  = occurrences s T.
Proof.
  induction n as [|n IH]; intros Hn.
  { unfold afterFirst. simpl.
    rewrite marked_all_absent, remaining_fresh; [done|]. repeat constructor. }
  specialize (IH ltac:(lia)).
  destruct (afterFirst_spec n) as (Hlen & Hrest & _); [lia|].
  destruct (Hrest n) as [Hfbn Httn]; [lia|].
  rewrite five_absent in Hfbn by lia. rewrite list_lookup_fmap in Httn.
  rewrite afterFirst_S.
  destruct (afterFirst G T n) as [fb tt]. simpl in *.
  unfold firstPassStep.
  destruct (G !! n) as [g|] eqn:Hg; [|done].
  rewrite Httn. destruct (T !! n) as [t|] eqn:Ht; simpl; [|done].
  case_decide; [|done]. subst t. simpl.
  rewrite (marked_insert_eq s G fb n g Correct) by (done || by left).
  assert (tt !! n = Some (Some g)) as Hslot by (by rewrite Httn).
  pose proof (remaining_consume s tt n g Hslot). lia.
Qed.

(** The second loop, turn by turn. *)
Lemma afterSecond_spec n :
  n ≤ 5 →
  length (afterSecond G T n).1 = 5
  ∧ (∀ s, marked s G (afterSecond G T n).1 + remaining s (afterSecond G T n).2
          = occurrences s T)
  ∧ (∀ i, n ≤ i → (afterSecond G T n).1 !! i = (afterFirst G T 5).1 !! i)
  ∧ (∀ i g, i < n → G !! i = Some g →
            (afterSecond G T n).1 !! i = Some Absent →
            remaining g (afterSecond G T n).2 = 0)
  ∧ (∀ i, (afterSecond G T n).1 !! i = Some Correct
          ↔ (afterFirst G T 5).1 !! i = Some Correct)
  ∧ (∀ i f, (afterSecond G T n).1 !! i = Some f → f ≠ Default).
Proof.
  destruct (afterFirst_spec 5) as (Hlen1 & _ & Hfirst); [lia|].
  induction n as [|n IH]; intros Hn.
  { unfold afterSecond. simpl. split; [done|].
    split; [intros s; by apply afterFirst_exact|].
    split; [done|]. split; [intros; lia|]. split; [done|].
    intros i f Hi. assert (i < 5) as Hi5.
    { apply lookup_lt_Some in Hi. lia. }
    specialize (Hfirst i Hi5). case_decide; destruct Hfirst; congruence. }
  destruct IH as (Hlen & Hexact & Hrest & Hzero & Hcorrect & Hshape); [lia|].
  rewrite afterSecond_S.
  destruct (afterSecond G T n) as [fb tt]. simpl in *.
  unfold secondPassStep.
  case_decide as Hc.
  { simpl. repeat split; try done; try (apply Hcorrect).
    - intros i Hi. apply Hrest. lia.
    - intros i g Hi Hg Hfb. destruct (decide (i = n)) as [->|]; [congruence|].
      eapply Hzero; [|done..]. lia. }
  destruct (G !! n) as [g|] eqn:Hg; last first.
  { simpl. repeat split; try done; try (apply Hcorrect).
    - intros i Hi. apply Hrest. lia.
    - intros i g Hi Hg' Hfb. destruct (decide (i = n)) as [->|]; [congruence|].
      eapply Hzero; [|done..]. lia. }
  destruct (indexOf g tt) as [j|] eqn:Hj; last first.
  { simpl. repeat split; try done; try (apply Hcorrect).
    - intros i Hi. apply Hrest. lia.
    - intros i g' Hi Hg' Hfb. destruct (decide (i = n)) as [->|].
      + simplify_eq. by apply indexOf_None.
      + eapply Hzero; [|done..]. lia. }
  simpl. apply indexOf_lookup in Hj.
  assert (fb !! n = Some Absent) as Hfbn.
  { rewrite Hrest in Hc |- * by lia.
    specialize (Hfirst n ltac:(lia)). case_decide; destruct Hfirst; congruence. }
  rewrite length_insert. split; [done|]. split; [|split; [|split; [|split]]].
  - intros s.
    rewrite (marked_insert_eq s G fb n g Present) by (done || by right).
    pose proof (remaining_consume s tt j g Hj). specialize (Hexact s). lia.
  - intros i Hi. rewrite list_lookup_insert_ne by lia. apply Hrest. lia.
  - intros i g' Hi Hg' Hfb.
    destruct (decide (i = n)) as [->|].
    + rewrite list_lookup_insert_eq in Hfb by lia. congruence.
    + rewrite list_lookup_insert_ne in Hfb by lia.
      pose proof (remaining_consume g' tt j g Hj).
      assert (remaining g' tt = 0) by (eapply Hzero; [|done..]; lia). lia.
  - intros i. destruct (decide (i = n)) as [->|].
    + rewrite list_lookup_insert_eq by lia. rewrite <-Hcorrect.
      split; [done|]. congruence.
    + rewrite list_lookup_insert_ne by lia. apply Hcorrect.
  - intros i f. destruct (decide (i = n)) as [->|].
    + rewrite list_lookup_insert_eq by lia. by intros [= <-].
    + rewrite list_lookup_insert_ne by lia. apply Hshape.
Qed.

End feedback_facts.

Section feedback_results.

Variables G T : list string.

Lemma evaluate_length : length (evaluate G T) = 5.
Proof.
  rewrite evaluate_afterSecond. by destruct (afterSecond_spec G T 5) as (? & _).
Qed.

Lemma evaluate_correct i :
  evaluate G T !! i = Some Correct
  ↔ i < 5 ∧ ∃ g, G !! i = Some g ∧ T !! i = Some g.
Proof.
  rewrite evaluate_afterSecond.
  destruct (afterSecond_spec G T 5) as (_ & _ & _ & _ & -> & _); [lia|].
  destruct (afterFirst_spec G T 5) as (Hlen & _ & Hfirst); [lia|].
  split.
  - intros Hi. assert (i < 5) as Hi5 by (apply lookup_lt_Some in Hi; lia).
    split; [done|]. specialize (Hfirst i Hi5).
    destruct (decide (matchAt G T i)) as [[[g Hg] Heq]|]; [|destruct Hfirst; congruence].
    exists g. by rewrite <-Heq.
  - intros [Hi5 (g & Hg & Ht)]. specialize (Hfirst i Hi5).
    rewrite decide_True in Hfirst; [by destruct Hfirst|].
    split; [by eexists|congruence].
Qed.

Lemma evaluate_no_default i f : evaluate G T !! i = Some f → f ≠ Default.
Proof.
  rewrite evaluate_afterSecond.
  destruct (afterSecond_spec G T 5) as (_ & _ & _ & _ & _ & Hshape); [lia|].
  apply Hshape.
Qed.

Lemma evaluate_all_correct :
  length G = 5 →
  Forall (λ f, f = Correct) (evaluate G T) ↔ G = take 5 T.
Proof.
  intros HG. rewrite Forall_lookup. split.
  - intros Hall. apply list_eq. intros i.
    destruct (decide (i < 5)) as [Hi|Hi].
    + destruct (lookup_lt_is_Some_2 (evaluate G T) i) as [f Hf].
      { by rewrite evaluate_length. }
      rewrite (Hall i f Hf) in Hf.
      apply evaluate_correct in Hf as [_ (g & -> & Ht)].
      by rewrite lookup_take_lt.
    + rewrite lookup_take_ge by lia. apply lookup_ge_None. lia.
  - intros HGT i f Hf.
    assert (i < 5) as Hi.
    { apply lookup_lt_Some in Hf. by rewrite evaluate_length in Hf. }
    destruct (lookup_lt_is_Some_2 G i) as [g Hg]; [lia|].
    assert (evaluate G T !! i = Some Correct) as Hc; [|congruence].
    apply evaluate_correct. split; [done|]. exists g. split; [done|].
    rewrite HGT in Hg. by rewrite lookup_take_lt in Hg.
Qed.

Lemma evaluate_exact s :
  length G = 5 →
  marked s G (evaluate G T) = occurrences s G `min` occurrences s T.
Proof.
  intros HG. rewrite evaluate_afterSecond.
  destruct (afterSecond_spec G T 5) as (Hlen & Hexact & _ & Hzero & _ & Hshape);
    [lia|].
  pose proof (marked_le_occurrences s G (afterSecond G T 5).1) as Hle.
  specialize (Hexact s).
  destruct (marked_or_unmarked s G (afterSecond G T 5).1)
    as [Hall|(i & f & Hg & Hf & Hfree)]; [lia| |].
  - lia.
  - assert (f = Absent) as ->.
    { pose proof (Hshape i f Hf). unfold isMark in Hfree. destruct f; tauto. }
    assert (i < 5) as Hi by (apply lookup_lt_Some in Hg; lia).
    rewrite (Hzero i s Hi Hg Hf) in Hexact. lia.
Qed.

Lemma evaluate_present i :
  length G = 5 →
  evaluate G T !! i = Some Present →
  ∃ g, G !! i = Some g ∧ g ∈ T ∧ T !! i ≠ Some g.
Proof.
  intros HG Hp.
  assert (i < 5) as Hi.
  { apply lookup_lt_Some in Hp. by rewrite evaluate_length in Hp. }
  destruct (lookup_lt_is_Some_2 G i) as [g Hg]; [lia|].
  exists g. split; [done|]. split.
  - apply (occurrences_positive g).
    pose proof (marked_positive g G (evaluate G T) i Present Hg Hp
                  (or_intror eq_refl)) as Hpos.
    pose proof (evaluate_accounted g G T). lia.
  - intros Ht.
    assert (evaluate G T !! i = Some Correct) as Hc; [|congruence].
    apply evaluate_correct. eauto.
Qed.

Lemma evaluate_absent i g :
  i < 5 → G !! i = Some g → g ∉ T → evaluate G T !! i = Some Absent.
Proof.
  intros Hi Hg Hnot.
  destruct (lookup_lt_is_Some_2 (evaluate G T) i) as [f Hf].
  { by rewrite evaluate_length. }
  pose proof (evaluate_no_default i f Hf).
  pose proof (evaluate_accounted g G T) as Hbound.
  destruct (decide (isMark f)) as [Hm|Hm].
  - pose proof (marked_positive g G (evaluate G T) i f Hg Hf Hm).
    exfalso. apply Hnot, (occurrences_positive g). lia.
  - rewrite Hf. f_equal. unfold isMark in Hm. destruct f; tauto.
Qed.

End feedback_results.

(** X1. A position of the feedback is correct exactly when the guess and
    the target hold the same symbol at that position. *)
Theorem correct_iff_same_symbol (G T : list string) (i : nat) :
  evaluate G T !! i = Some Correct
  ↔ i < 5 ∧ ∃ g, G !! i = Some g ∧ T !! i = Some g.
Proof. apply evaluate_correct. Qed.

(** X2. The feedback of a five-phoneme guess is all correct exactly when
    the guess is the first five phonemes of the target: for a target of
    five phonemes, exactly when the two pronunciations are the same. *)
Theorem all_correct_iff_same_pronunciation (G T : list string) :
  length G = 5 →
  (Forall (λ f, f = Correct) (evaluate G T) ↔ G = take 5 T)
  ∧ (length T = 5 → Forall (λ f, f = Correct) (evaluate G T) ↔ G = T).
Proof.
  intros HG. split; [by apply evaluate_all_correct|].
  intros HT. rewrite evaluate_all_correct by done.
  by rewrite take_ge by lia.
Qed.

Lemma all_correct_iff_same_pronunciation_witness :
  Forall (λ f, f = Correct)
    (evaluate ["N"; "AY"; "T"; "S"; "IY"] ["N"; "AY"; "T"; "S"; "IY"])
  ∧ ¬ Forall (λ f, f = Correct)
        (evaluate ["K"; "AE"; "T"; "S"; "IY"] ["N"; "AY"; "T"; "S"; "IY"]).
Proof.
  split.
  - apply (all_correct_iff_same_pronunciation
             ["N"; "AY"; "T"; "S"; "IY"] ["N"; "AY"; "T"; "S"; "IY"]);
      reflexivity.
  - intros Hall.
    apply (all_correct_iff_same_pronunciation
             ["K"; "AE"; "T"; "S"; "IY"] ["N"; "AY"; "T"; "S"; "IY"]) in Hall;
      [discriminate|reflexivity|reflexivity].
Defined.

(** X3. For a guess of five phonemes, the positions of a symbol that are
    marked correct or present are as many as the smaller of its number of
    occurrences in the guess and in the target. *)
Theorem marks_are_the_minimum (G T : list string) (s : string) :
  length G = 5 →
  marked s G (evaluate G T) = occurrences s G `min` occurrences s T.
Proof. intros HG. by apply evaluate_exact. Qed.

Lemma marks_are_the_minimum_witness :
  marked "B" ["B"; "B"; "AH"; "B"; "IY"]
    (evaluate ["B"; "B"; "AH"; "B"; "IY"] ["K"; "B"; "B"; "AH"; "T"])
  = 2.
Proof.
  rewrite (marks_are_the_minimum ["B"; "B"; "AH"; "B"; "IY"]
             ["K"; "B"; "B"; "AH"; "T"] "B"); reflexivity.
Defined.

(** X4. In the feedback of a five-phoneme guess, a position marked present
    holds a symbol that occurs in the target but not at that position, and
    a position whose symbol does not occur in the target is marked
    absent. *)
Theorem present_and_absent_sound (G T : list string) (i : nat) :
  length G = 5 →
  (evaluate G T !! i = Some Present →
   ∃ g, G !! i = Some g ∧ g ∈ T ∧ T !! i ≠ Some g)
  ∧ (∀ g, i < 5 → G !! i = Some g → g ∉ T →
       evaluate G T !! i = Some Absent).
Proof.
  intros HG. split; [by apply evaluate_present|].
  intros g. apply evaluate_absent.
Qed.

Lemma present_and_absent_sound_witness :
  evaluate ["K"; "AE"; "T"; "S"; "IY"] ["B"; "IY"; "T"; "S"; "Z"] !! 0
  = Some Absent
  ∧ ∃ g, ["K"; "AE"; "T"; "S"; "IY"] !! 4 = Some g
         ∧ g ∈ ["B"; "IY"; "T"; "S"; "Z"].
Proof.
  destruct (present_and_absent_sound ["K"; "AE"; "T"; "S"; "IY"]
              ["B"; "IY"; "T"; "S"; "Z"] 0 eq_refl) as [_ Habsent].
  destruct (present_and_absent_sound ["K"; "AE"; "T"; "S"; "IY"]
              ["B"; "IY"; "T"; "S"; "Z"] 4 eq_refl) as [Hpresent _].
  split.
  - apply (Habsent "K"); [lia|reflexivity|].
    rewrite !elem_of_cons, elem_of_nil. intros Hin.
    repeat (destruct Hin as [Hin|Hin]; [discriminate|]). done.
  - destruct (Hpresent eq_refl) as (g & Hg & Hin & _). by exists g.
Defined.

(** ** The keyboard status after a guess *)

Section status_facts.

Implicit Types (ps : gmap string status) (p q : string) (f : status)
  (l : list (string * status)).

Lemma statusStep_other ps q f p : q ≠ p → statusStep ps q f !! p = ps !! p.
Proof.
  intros Hne. unfold statusStep.
  repeat case_decide; by rewrite ?lookup_insert_ne.
Qed.

Lemma statusStep_is_Some ps q f p :
  is_Some (ps !! p) → is_Some (statusStep ps q f !! p).
Proof.
  intros Hp. unfold statusStep.
  repeat case_decide; try done;
    (destruct (decide (q = p)) as [->|];
     [rewrite lookup_insert_eq; by eexists|by rewrite lookup_insert_ne]).
Qed.

(** On a symbol that has an entry, a verdict acts as a maximum. *)
Lemma statusStep_max ps p f :
  is_Some (ps !! p) →
  rankOf (statusStep ps p f) p = rankOf ps p `max` rank f.
Proof.
  intros [s0 Hp]. unfold statusStep, rankOf. rewrite Hp.
  destruct f, s0; repeat case_decide; destruct_and?;
    rewrite ?lookup_insert_eq, ?Hp; simpl; try lia; try congruence;
    exfalso;
    match goal with
    | H : ¬ (_ ∧ _) |- _ => apply H; split; congruence
    end.
Qed.

Lemma statusSteps_max l ps p :
  is_Some (ps !! p) →
  rankOf (foldl (λ ps gf, statusStep ps gf.1 gf.2) ps l) p
  = rankOf ps p `max` max_list (rank <$> (filter (λ gf, gf.1 = p) l).*2).
Proof.
  revert ps. induction l as [|[g f] l IH]; intros ps Hp; simpl; [lia|].
  rewrite IH by (by apply statusStep_is_Some).
  rewrite filter_cons. simpl. destruct (decide (g = p)) as [->|Hne].
  - rewrite statusStep_max by done. simpl. symmetry. apply Nat.max_assoc.
  - unfold rankOf at 1. by rewrite statusStep_other.
Qed.

Lemma statusSteps_other l ps p :
  p ∉ l.*1 → foldl (λ ps gf, statusStep ps gf.1 gf.2) ps l !! p = ps !! p.
Proof.
  revert ps. induction l as [|[g f] l IH]; intros ps Hp; [done|].
  simpl in *. apply not_elem_of_cons in Hp as [Hne Hp].
  rewrite IH by done. by apply statusStep_other.
Qed.

(** The loop of lines 212 to 222 visits the five pairs of a phoneme and
    its verdict. *)
Lemma updateStatus_zip G fb ps :
  length G = 5 → length fb = 5 →
  updateStatus G fb ps = foldl (λ ps gf, statusStep ps gf.1 gf.2) ps (zip G fb).
Proof.
  intros HG Hfb.
  destruct G as [|g0 [|g1 [|g2 [|g3 [|g4 [|]]]]]]; try done.
  destruct fb as [|f0 [|f1 [|f2 [|f3 [|f4 [|]]]]]]; done.
Qed.

End status_facts.

(** X5. After the status update of a guess, a symbol that has an entry in
    the status map has the best of its former status and of the verdicts
    at its positions in the guess (default < absent < present < correct);
    a symbol that is not in the guess keeps its status. *)
Theorem status_is_best_verdict (G : list string) (fb : list status)
    (ps : gmap string status) (p : string) :
  length G = 5 → length fb = 5 →
  (is_Some (ps !! p) →
   rankOf (updateStatus G fb ps) p
   = rankOf ps p `max` max_list (verdictRanks p G fb))
  ∧ (p ∉ G → updateStatus G fb ps !! p = ps !! p).
Proof.
  intros HG Hfb. rewrite updateStatus_zip by done. split.
  - apply statusSteps_max.
  - intros Hp. apply statusSteps_other.
    rewrite fst_zip; [done|lia].
Qed.

Lemma status_is_best_verdict_witness :
  let ps : gmap string status := {[ "T" := Present; "S" := Default; "Z" := Absent ]} in
  let ps' := updateStatus ["T"; "AE"; "T"; "S"; "IY"]
               [Absent; Absent; Correct; Absent; Present] ps in
  rankOf ps' "T" = 3 ∧ rankOf ps' "S" = 1 ∧ ps' !! "Z" = Some Absent.
Proof.
  intros ps ps'.
  destruct (status_is_best_verdict ["T"; "AE"; "T"; "S"; "IY"]
              [Absent; Absent; Correct; Absent; Present] ps "T" eq_refl eq_refl)
    as [HT _].
  destruct (status_is_best_verdict ["T"; "AE"; "T"; "S"; "IY"]
              [Absent; Absent; Correct; Absent; Present] ps "S" eq_refl eq_refl)
    as [HS _].
  destruct (status_is_best_verdict ["T"; "AE"; "T"; "S"; "IY"]
              [Absent; Absent; Correct; Absent; Present] ps "Z" eq_refl eq_refl)
    as [_ HZ].
  split; [|split].
  - unfold ps'. rewrite HT; [vm_compute; reflexivity|]. vm_compute. by eexists.
  - unfold ps'. rewrite HS; [vm_compute; reflexivity|]. vm_compute. by eexists.
  - unfold ps'. rewrite HZ; [vm_compute; reflexivity|].
    rewrite !elem_of_cons, elem_of_nil. intros Hin.
    repeat (destruct Hin as [Hin|Hin]; [discriminate|]). done.
Defined.

(** ** The rows of a round *)

Section row_facts.

Implicit Types (st : state) (key : string) (r : nat).

Lemma startGame_rowsInOrder r st :
  gameState st = Loading ∨ gameState st = Over →
  rowsInOrder (stateOf (startGame r st)).
Proof.
  intros Hphase. unfold startGame, rowsInOrder, MAX_GUESSES. simpl.
  destruct (dictionary st !! propertyKey (wordlist st !! r)) as [ph|] eqn:Hph;
    simpl.
  - split; [lia|]. split; [done|]. split; [by eexists|lia].
  - split; [lia|]. split; [done|]. by destruct Hphase as [-> | ->].
Qed.

Lemma submitGuess_rowsInOrder st :
  gameState st = Playing → rowsInOrder st →
  rowsInOrder (stateOf (submitGuess st)).
Proof.
  intros Hphase (Hmax & Hrecs & Hrow). rewrite Hphase in Hrow.
  destruct Hrow as ([T HT] & Hcur & Hlt).
  unfold submitGuess, rowsInOrder, MAX_GUESSES in *.
  case_bool_decide.
  { simpl. rewrite Hphase. rewrite HT. by eauto. }
  destruct (dictionary st !! currentGuess st) as [G|].
  2:{ simpl. rewrite Hphase, HT. by eauto. }
  case_bool_decide as HG.
  { simpl. rewrite Hphase, HT. by eauto. }
  simpl. rewrite HT. simpl. rewrite length_app. simpl.
  split; [lia|]. split; [|split; [by eexists|lia]].
  apply Forall_app. split; [done|]. constructor; [|done]. simpl.
  split; [|apply evaluate_length].
  destruct (decide (length G = 5)); [done|]. by destruct HG.
Qed.

Lemma handleKeydown_rowsInOrder key r st :
  rowsInOrder st → rowsInOrder (stateOf (handleKeydown key r st)).
Proof.
  intros Hst. unfold handleKeydown.
  case_bool_decide as Hrestart.
  { apply startGame_rowsInOrder. right. by destruct Hrestart. }
  case_bool_decide as Hplaying; [done|].
  assert (gameState st = Playing) as Hphase.
  { destruct (decide (gameState st = Playing)); [done|]. by destruct Hplaying. }
  case_bool_decide; [by apply submitGuess_rowsInOrder|].
  unfold rowsInOrder in *.
  case_bool_decide; [done|]. by destruct (Text.isLetterKey key).
Qed.

Lemma checkWinLoss_rowsInOrder st :
  gameState st = Revealing → rowsInOrder st →
  rowsInOrder (stateOf (checkWinLoss st)).
Proof.
  intros Hphase (Hmax & Hrecs & Hrow). rewrite Hphase in Hrow.
  destruct Hrow as ([T HT] & Hlen).
  unfold checkWinLoss, rowsInOrder, MAX_GUESSES in *.
  destruct (last (guesses st)) as [g|] eqn:Hlast.
  2:{ apply last_None in Hlast. rewrite Hlast in Hlen. done. }
  destruct (forallb _ _); [done|].
  case_bool_decide as H6.
  - by rewrite HT.
  - simpl. split; [done|]. split; [done|]. split; [by eexists|]. lia.
Qed.

Lemma gameSteps_rowsInOrder st st' :
  rowsInOrder st → rtc gameStep st st' → rowsInOrder st'.
Proof.
  intros Hst Hsteps. induction Hsteps as [|st1 st2 st3 Hstep _ IH]; [done|].
  apply IH. destruct Hstep as [key r st1|st1 Hphase].
  - by apply handleKeydown_rowsInOrder.
  - by apply checkWinLoss_rowsInOrder.
Qed.

(** The program does not write to what loading has built. *)
Lemma submitGuess_lexicon st :
  let st' := stateOf (submitGuess st) in
  dictionary st' = dictionary st ∧ wordlist st' = wordlist st
  ∧ allPhonemesSorted st' = allPhonemesSorted st
  ∧ frequencySet st' = frequencySet st.
Proof.
  unfold submitGuess. case_bool_decide; [done|].
  destruct (dictionary st !! currentGuess st); [|done].
  case_bool_decide; [done|]. simpl. by destruct (targetPhonemes st).
Qed.

Lemma checkWinLoss_lexicon st :
  let st' := stateOf (checkWinLoss st) in
  dictionary st' = dictionary st ∧ wordlist st' = wordlist st
  ∧ allPhonemesSorted st' = allPhonemesSorted st
  ∧ frequencySet st' = frequencySet st.
Proof.
  unfold checkWinLoss. destruct (last (guesses st)); [|done].
  destruct (forallb _ _); [done|].
  case_bool_decide; [|done]. by destruct (targetPhonemes st).
Qed.

Lemma handleKeydown_lexicon key r st :
  let st' := stateOf (handleKeydown key r st) in
  dictionary st' = dictionary st ∧ wordlist st' = wordlist st
  ∧ allPhonemesSorted st' = allPhonemesSorted st
  ∧ frequencySet st' = frequencySet st.
Proof.
  unfold handleKeydown.
  case_bool_decide; [apply startGame_lexicon|].
  case_bool_decide; [done|].
  case_bool_decide; [apply submitGuess_lexicon|].
  case_bool_decide; [done|]. by destruct (Text.isLetterKey key).
Qed.

Lemma gameSteps_lexicon st st' :
  rtc gameStep st st' →
  dictionary st' = dictionary st ∧ wordlist st' = wordlist st
  ∧ allPhonemesSorted st' = allPhonemesSorted st
  ∧ frequencySet st' = frequencySet st.
Proof.
  induction 1 as [|st1 st2 st3 Hstep _ (-> & -> & -> & ->)]; [done|].
  destruct Hstep as [key r st1|st1 _].
  - apply handleKeydown_lexicon.
  - apply checkWinLoss_lexicon.
Qed.

End row_facts.

(** X6. From a state in which the rows are in order (such as the one a
    successful [startGame] leaves), whatever keys are pressed and whenever
    the scheduled [checkWinLoss] runs: there are never more than six
    guesses, every guess has five phonemes and five verdicts, while
    playing [currentRow] is the number of guesses and below six, and while
    revealing [currentRow] is below six and is the index of the last
    guess, the row that [animateGuess] reads. *)
Theorem rows_stay_in_order (st st' : state) :
  rowsInOrder st → rtc gameStep st st' →
  rowsInOrder st'
  ∧ length (guesses st') ≤ 6
  ∧ (gameState st' = Playing →
     currentRow st' = length (guesses st') ∧ currentRow st' < 6)
  ∧ (gameState st' = Revealing →
     currentRow st' < 6
     ∧ guesses st' !! currentRow st' = last (guesses st')).
Proof.
  intros Hst Hsteps.
  pose proof (gameSteps_rowsInOrder st st' Hst Hsteps) as Hst'.
  split; [done|]. destruct Hst' as (Hmax & _ & Hrow).
  unfold MAX_GUESSES in *. split; [done|]. split.
  - intros Hphase. rewrite Hphase in Hrow. lia.
  - intros Hphase. rewrite Hphase in Hrow. destruct Hrow as [_ Hlen].
    split; [lia|]. rewrite last_lookup, Hlen. done.
Qed.

Lemma rows_stay_in_order_witness :
  let st' := stateOf (handleKeydown "Enter" 0 sampleRound) in
  gameState st' = Revealing
  ∧ currentRow st' < 6
  ∧ guesses st' !! currentRow st' = last (guesses st').
Proof.
  intros st'.
  assert (rowsInOrder sampleRound) as Hst.
  { unfold rowsInOrder, MAX_GUESSES. simpl.
    split; [lia|]. split; [done|]. split; [by eexists|lia]. }
  assert (rtc gameStep sampleRound st') as Hsteps.
  { apply rtc_once, game_keydown. }
  destruct (rows_stay_in_order sampleRound st' Hst Hsteps)
    as (_ & _ & _ & Hrev).
  assert (gameState st' = Revealing) as Hphase by (vm_compute; reflexivity).
  split; [exact Hphase|]. exact (Hrev Hphase).
Defined.

(** X7. No key press and no [checkWinLoss] changes the lexicon map, the
    candidate list, the frequency set or the sorted alphabet: what loading
    has built is only read during the game. *)
Theorem lexicon_read_only (st st' : state) :
  rtc gameStep st st' →
  dictionary st' = dictionary st ∧ wordlist st' = wordlist st
  ∧ allPhonemesSorted st' = allPhonemesSorted st
  ∧ frequencySet st' = frequencySet st.
Proof. apply gameSteps_lexicon. Qed.

Lemma lexicon_read_only_witness :
  let st' := stateOf (checkWinLoss (stateOf (handleKeydown "Enter" 0 sampleRound))) in
  dictionary st' = dictionary sampleRound ∧ wordlist st' = ["BEETS"].
Proof.
  intros st'.
  assert (rtc gameStep sampleRound st') as Hsteps.
  { eapply rtc_l; [apply game_keydown|].
    apply rtc_once, game_checkWinLoss. vm_compute. reflexivity. }
  destruct (lexicon_read_only sampleRound st' Hsteps) as (Hdict & Hlist & _).
  split; [exact Hdict|]. rewrite Hlist. reflexivity.
Defined.

(** ** Keys *)

Section key_facts.

Implicit Types (st : state) (key s : string) (r : nat) (c : ascii).

Lemma handleKeydown_locked key r st :
  gameState st ≠ Playing → ¬ (gameState st = Over ∧ key = "Enter") →
  handleKeydown key r st = Returns st.
Proof.
  intros Hphase Hrestart. unfold handleKeydown.
  rewrite bool_decide_eq_false_2 by done.
  by rewrite bool_decide_eq_true_2.
Qed.

Lemma deliver_locked ks st :
  gameState st ≠ Playing →
  Forall (λ k, ¬ (gameState st = Over ∧ k.1 = "Enter")) ks →
  deliver ks st = st.
Proof.
  intros Hphase Hks. unfold deliver.
  induction Hks as [|k ks Hk _ IH]; [done|].
  simpl. by rewrite handleKeydown_locked.
Qed.

Lemma upperChar_isUpper c :
  Text.isLower c || Text.isUpper c → Text.isUpper (Text.upperChar c).
Proof. destruct c as [[] [] [] [] [] [] [] []]; by vm_compute. Qed.

Lemma dropLast_allChars P s : allChars P s → allChars P (Text.dropLast s).
Proof.
  induction s as [|c s IH]; [done|].
  simpl. intros [Hc Hs]%andb_True.
  destruct s as [|c' s]; [done|].
  change (Is_true (P c && allChars P (Text.dropLast (String c' s)))).
  apply andb_True. auto.
Qed.

Lemma dropLast_snoc s c : Text.dropLast (s +:+ String c "") = s.
Proof.
  induction s as [|c0 s IH]; [done|].
  rewrite app_cons. simpl. rewrite IH.
  destruct s; by rewrite ?app_cons.
Qed.

Lemma submitGuess_lettersOnly st :
  lettersOnly (currentGuess st) →
  lettersOnly (currentGuess (stateOf (submitGuess st))).
Proof.
  intros Hst. unfold submitGuess. case_bool_decide; [done|].
  destruct (dictionary st !! currentGuess st); [|done].
  case_bool_decide; [done|]. simpl. by destruct (targetPhonemes st).
Qed.

Lemma handleKeydown_lettersOnly key r st :
  lettersOnly (currentGuess st) →
  lettersOnly (currentGuess (stateOf (handleKeydown key r st))).
Proof.
  intros Hst. unfold handleKeydown.
  case_bool_decide.
  { unfold startGame. simpl.
    by destruct (dictionary st !! propertyKey (wordlist st !! r)). }
  case_bool_decide; [done|].
  case_bool_decide; [by apply submitGuess_lettersOnly|].
  case_bool_decide; [by apply dropLast_allChars|].
  destruct (Text.isLetterKey key) eqn:Hkey; [|done]. simpl.
  unfold lettersOnly. rewrite allChars_app. apply andb_True. split; [done|].
  destruct key as [|c [|]]; try done. simpl in *.
  rewrite andb_True. split; [|done]. apply upperChar_isUpper. by rewrite Hkey.
Qed.

Lemma checkWinLoss_currentGuess st :
  currentGuess (stateOf (checkWinLoss st)) = currentGuess st.
Proof.
  unfold checkWinLoss. destruct (last (guesses st)); [|done].
  destruct (forallb _ _); [done|].
  case_bool_decide; [|done]. by destruct (targetPhonemes st).
Qed.

Lemma gameSteps_lettersOnly st st' :
  lettersOnly (currentGuess st) → rtc gameStep st st' →
  lettersOnly (currentGuess st').
Proof.
  intros Hst Hsteps. induction Hsteps as [|st1 st2 st3 Hstep _ IH]; [done|].
  apply IH. destruct Hstep as [key r st1|st1 _].
  - by apply handleKeydown_lettersOnly.
  - by rewrite checkWinLoss_currentGuess.
Qed.

Lemma fold_default (l : list string) (m : gmap string status) p :
  foldl (λ m p, <[p := Default]> m) m l !! p
  = if decide (p ∈ l) then Some Default else m !! p.
Proof.
  revert m. induction l as [|q l IH]; intros m; cbn [foldl].
  { by rewrite decide_False by apply not_elem_of_nil. }
  rewrite IH. destruct (decide (p ∈ l)) as [Hin|Hin].
  - by rewrite decide_True by (by right).
  - destruct (decide (q = p)) as [->|Hne].
    + rewrite decide_True by left. by rewrite lookup_insert_eq.
    + rewrite decide_False; [by rewrite lookup_insert_ne|].
      rewrite elem_of_cons. intros [->|]; done.
Qed.

Lemma handleKeydown_letter st c r :
  gameState st = Playing → Text.isLower c || Text.isUpper c →
  handleKeydown (String c "") r st
  = Returns (set_currentGuess
               (currentGuess st +:+ String (Text.upperChar c) "") st).
Proof.
  intros Hphase Hc. unfold handleKeydown. rewrite Hphase.
  rewrite bool_decide_eq_false_2 by (by intros [? _]).
  rewrite bool_decide_eq_false_2 by (intros Hne; by apply Hne).
  rewrite bool_decide_eq_false_2 by (by intros [=]).
  rewrite bool_decide_eq_false_2 by (by intros [=]).
  simpl. by rewrite (Is_true_true_1 _ Hc).
Qed.

Lemma handleKeydown_backspace st r :
  gameState st = Playing →
  handleKeydown "Backspace" r st
  = Returns (set_currentGuess (Text.dropLast (currentGuess st)) st).
Proof.
  intros Hphase. unfold handleKeydown. rewrite Hphase.
  rewrite bool_decide_eq_false_2 by (by intros [? _]).
  rewrite bool_decide_eq_false_2 by (intros Hne; by apply Hne).
  rewrite bool_decide_eq_false_2 by (by intros [=]).
  by rewrite bool_decide_eq_true_2.
Qed.

Lemma handleKeydown_enter st r :
  gameState st = Playing → handleKeydown "Enter" r st = submitGuess st.
Proof.
  intros Hphase. unfold handleKeydown. rewrite Hphase.
  rewrite bool_decide_eq_false_2 by (by intros [? _]).
  rewrite bool_decide_eq_false_2 by (intros Hne; by apply Hne).
  by rewrite bool_decide_eq_true_2.
Qed.

End key_facts.

(** X8. Key presses have no effect while the dictionary is loading and
    while a guess is being revealed; when the round is over, only Enter
    has an effect. *)
Theorem keys_locked_out (ks : list (string * nat)) (st : state) :
  (gameState st = Loading ∨ gameState st = Revealing → deliver ks st = st)
  ∧ (gameState st = Over → Forall (λ k, k.1 ≠ "Enter") ks →
     deliver ks st = st).
Proof.
  split.
  - intros Hphase. apply deliver_locked.
    + by destruct Hphase as [-> | ->].
    + apply Forall_forall. intros k _ [Hover _].
      destruct Hphase as [Hp|Hp]; rewrite Hp in Hover; discriminate.
  - intros Hphase Hks. apply deliver_locked; [by rewrite Hphase|].
    eapply Forall_impl; [done|]. intros k Hk [_ ?]. done.
Qed.

Lemma keys_locked_out_witness :
  let st := stateOf (handleKeydown "Enter" 0 sampleRound) in
  deliver [("a", 0); ("Enter", 0); ("Backspace", 0)] st = st.
Proof.
  intros st.
  destruct (keys_locked_out [("a", 0); ("Enter", 0); ("Backspace", 0)] st)
    as [Hlocked _].
  apply Hlocked. right. vm_compute. reflexivity.
Defined.

(** X9. The input buffer never holds anything but the capital letters A
    to Z: from a state where that is so, it stays so whatever keys are
    pressed and whenever [checkWinLoss] runs. *)
Theorem buffer_holds_capital_letters (st st' : state) :
  lettersOnly (currentGuess st) → rtc gameStep st st' →
  lettersOnly (currentGuess st').
Proof. apply gameSteps_lettersOnly. Qed.

Lemma buffer_holds_capital_letters_witness :
  let st' := stateOf (handleKeydown "x" 0
               (stateOf (handleKeydown "!" 0 (set_currentGuess "" sampleRound)))) in
  currentGuess st' = "X" ∧ lettersOnly (currentGuess st').
Proof.
  intros st'. split; [vm_compute; reflexivity|].
  apply (buffer_holds_capital_letters (set_currentGuess "" sampleRound) st').
  - exact I.
  - eapply rtc_l; [apply game_keydown|]. apply rtc_once, game_keydown.
Defined.

(** X10. While playing, a letter key appends its capital to the input
    buffer, and Backspace right after it gives back the state before the
    letter. *)
Theorem backspace_undoes_letter (st : state) (key : string) (r r' : nat) :
  gameState st = Playing → Text.isLetterKey key →
  currentGuess (stateOf (handleKeydown key r st))
  = currentGuess st +:+ Text.toUpperCase key
  ∧ handleKeydown "Backspace" r' (stateOf (handleKeydown key r st))
    = Returns st.
Proof.
  intros Hphase Hkey.
  destruct key as [|c [|]]; try done. simpl in Hkey.
  rewrite (handleKeydown_letter st c r Hphase Hkey). simpl.
  split; [done|].
  rewrite handleKeydown_backspace by done. simpl.
  rewrite dropLast_snoc. by destruct st.
Qed.

Lemma backspace_undoes_letter_witness :
  handleKeydown "Backspace" 0 (stateOf (handleKeydown "s" 0 sampleRound))
  = Returns sampleRound.
Proof.
  apply (backspace_undoes_letter sampleRound "s" 0 0); [reflexivity|exact I].
Defined.

(** X11. Enter in a finished round, when the drawn index is one of the
    candidate list and the lexicon has the drawn word, starts a fresh
    round: the drawn word and its pronunciation are the target, there are
    no guesses, the buffer is empty, the row index is 0, the message is
    hidden, and the status map holds default for exactly the symbols of
    the alphabet, whatever it held before. *)
Theorem restart_gives_fresh_round (st : state) (r : nat) (w : string)
    (ph : list string) :
  gameState st = Over → wordlist st !! r = Some w →
  dictionary st !! w = Some ph →
  ∃ st', handleKeydown "Enter" r st = Returns st'
    ∧ gameState st' = Playing
    ∧ targetWord st' = Some w ∧ targetPhonemes st' = Some ph
    ∧ guesses st' = [] ∧ currentGuess st' = "" ∧ currentRow st' = 0
    ∧ messageBox st' = None
    ∧ ∀ p, phonemeStatus st' !! p
           = if decide (p ∈ allPhonemesSorted st) then Some Default else None.
Proof.
  intros Hphase Hw Hph. unfold handleKeydown.
  rewrite bool_decide_eq_true_2 by done.
  unfold startGame. simpl. rewrite Hw. simpl. rewrite Hph.
  eexists. split; [done|]. simpl. repeat split; try done.
  intros p. by rewrite fold_default, lookup_empty.
Qed.

Lemma restart_gives_fresh_round_witness :
  let over := set_gameState Over (stateOf (submitGuess sampleRound)) in
  ∃ st', handleKeydown "Enter" 0 (set_dictionary
           {[ "BEETS" := ["B"; "IY"; "T"; "S"; "Z"] ]} over) = Returns st'
    ∧ gameState st' = Playing ∧ guesses st' = []
    ∧ phonemeStatus st' !! "K" = Some Default.
Proof.
  intros over.
  destruct (restart_gives_fresh_round
              (set_dictionary {[ "BEETS" := ["B"; "IY"; "T"; "S"; "Z"] ]} over)
              0 "BEETS" ["B"; "IY"; "T"; "S"; "Z"])
    as (st' & Hrun & Hphase & _ & _ & Hguesses & _ & _ & _ & Hstatus).
  - reflexivity.
  - vm_compute. reflexivity.
  - vm_compute. reflexivity.
  - exists st'. split; [exact Hrun|]. split; [exact Hphase|].
    split; [exact Hguesses|]. rewrite Hstatus. vm_compute. reflexivity.
Defined.

(** X12. While playing, Enter on a buffer that holds a word of five
    phonemes, against a target of five phonemes, stores the guess with its
    feedback and starts the reveal; the [checkWinLoss] that follows ends
    the round as won exactly when the pronunciation of the guess is that
    of the target, be the word the target word or not.  Otherwise the
    round is lost if this was the sixth guess, and goes on with the next
    row if not. *)
Theorem same_pronunciation_wins (st : state) (r : nat) (G T : list string) :
  gameState st = Playing → currentGuess st ≠ "" →
  dictionary st !! currentGuess st = Some G → length G = 5 →
  targetPhonemes st = Some T → length T = 5 →
  ∃ st1 st2,
    handleKeydown "Enter" r st = Returns st1
    ∧ gameState st1 = Revealing
    ∧ guesses st1
      = guesses st ++ [GuessRecord (currentGuess st) G (evaluate G T)]
    ∧ checkWinLoss st1 = Returns st2
    ∧ (G = T → gameState st2 = Over ∧ messageBox st2 = Some YouWon)
    ∧ (G ≠ T →
       if decide (length (guesses st) = 5)
       then gameState st2 = Over
            ∧ messageBox st2 = Some (OutOfGuesses (targetWord st) T)
       else gameState st2 = Playing ∧ currentRow st2 = S (currentRow st)).
Proof.
  intros Hphase Hne HG HG5 HT HT5.
  rewrite handleKeydown_enter by done.
  unfold submitGuess.
  rewrite bool_decide_eq_false_2 by (by destruct (currentGuess st)).
  rewrite HG. rewrite bool_decide_eq_false_2 by (intros Hlen; by apply Hlen).
  simpl. rewrite HT.
  pose proof (evaluate_all_correct G T HG5) as Hwin.
  rewrite take_ge in Hwin by lia.
  destruct (decide (G = T)) as [Heq|Hneq].
  - assert (forallb (λ f, bool_decide (f = Correct)) (evaluate G T) = true)
      as Hall.
    { apply Is_true_true_1, forallb_True.
      eapply Forall_impl; [by apply Hwin|].
      intros f ->. by apply bool_decide_pack. }
    eexists; eexists. do 3 (split; [reflexivity|]).
    unfold checkWinLoss. simpl. rewrite last_snoc. simpl. rewrite Hall.
    split; [reflexivity|]. split; [done|]. intros Hneq. by destruct Hneq.
  - assert (forallb (λ f, bool_decide (f = Correct)) (evaluate G T) = false)
      as Hall.
    { apply not_true_iff_false. intros Hall. apply Hneq, Hwin.
      apply Is_true_true_2, forallb_True in Hall.
      eapply Forall_impl; [done|]. intros f Hf. by apply bool_decide_unpack in Hf. }
    destruct (decide (length (guesses st) = 5)) as [H5|H5].
    + eexists; eexists. do 3 (split; [reflexivity|]).
      unfold checkWinLoss, MAX_GUESSES. simpl. rewrite last_snoc. simpl.
      rewrite Hall, length_app. simpl.
      rewrite bool_decide_eq_true_2 by lia. rewrite HT.
      split; [reflexivity|]. split; [done|]. done.
    + eexists; eexists. do 3 (split; [reflexivity|]).
      unfold checkWinLoss, MAX_GUESSES. simpl. rewrite last_snoc. simpl.
      rewrite Hall, length_app. simpl.
      rewrite bool_decide_eq_false_2 by lia.
      split; [reflexivity|]. split; [done|]. done.
Qed.

Lemma same_pronunciation_wins_witness :
  let st := set_targetPhonemes (Some ["K"; "AE"; "T"; "S"; "IY"]) sampleRound in
  ∃ st1 st2,
    handleKeydown "Enter" 0 st = Returns st1
    ∧ checkWinLoss st1 = Returns st2
    ∧ gameState st2 = Over ∧ messageBox st2 = Some YouWon.
Proof.
  intros st.
  destruct (same_pronunciation_wins st 0 ["K"; "AE"; "T"; "S"; "IY"]
              ["K"; "AE"; "T"; "S"; "IY"])
    as (st1 & st2 & Hrun & _ & _ & Hcheck & Hwon & _);
    [reflexivity|discriminate|reflexivity..|].
  exists st1, st2. split; [exact Hrun|]. split; [exact Hcheck|].
  exact (Hwon eq_refl).
Defined.

(** ** More on the loader *)

Section loader_more.

Implicit Types (st : state) (acc : state * list string)
  (lines : list string) (recs : list (string * list string))
  (pset : list string).

Lemma setAdd_elem_of pset p q : q ∈ setAdd pset p ↔ q ∈ pset ∨ q = p.
Proof.
  unfold setAdd. case_decide as Hin.
  - split; [auto|]. intros [?| ->]; done.
  - rewrite elem_of_app, list_elem_of_singleton. done.
Qed.

Lemma setAdd_NoDup pset p : NoDup pset → NoDup (setAdd pset p).
Proof.
  intros Hpset. unfold setAdd. case_decide as Hin; [done|].
  apply NoDup_app. split; [done|]. split; [|apply NoDup_singleton].
  intros q Hq ->%list_elem_of_singleton. done.
Qed.

Lemma setAdds_elem_of (l : list string) pset q :
  q ∈ foldl setAdd pset l ↔ q ∈ pset ∨ q ∈ l.
Proof.
  revert pset. induction l as [|p l IH]; intros pset; simpl.
  - rewrite elem_of_nil. tauto.
  - rewrite IH, setAdd_elem_of, elem_of_cons. tauto.
Qed.

Lemma setAdds_NoDup (l : list string) pset :
  NoDup pset → NoDup (foldl setAdd pset l).
Proof.
  revert pset. induction l as [|p l IH]; intros pset Hpset; [done|].
  simpl. by apply IH, setAdd_NoDup.
Qed.

(** The alphabet set under construction: the symbols of the records so
    far, without duplicates. *)
Lemma processLines_phonemeSet lines acc :
  NoDup acc.2 →
  NoDup (foldl processLine acc lines).2
  ∧ ∀ p, p ∈ (foldl processLine acc lines).2
         ↔ p ∈ acc.2 ∨ ∃ w ph, (w, ph) ∈ records lines ∧ p ∈ ph.
Proof.
  unfold records. revert acc.
  induction lines as [|line lines IH]; intros acc Hacc.
  { simpl. split; [done|]. intros p. split; [auto|].
    intros [?|(w & ph & Hin & _)]; [done|]. by apply elem_of_nil in Hin. }
  simpl. unfold processLine at 2 4.
  destruct (parseLine line) as [[w ph]|] eqn:Hparse; simpl.
  - destruct acc as [st pset]. unfold storeRecord.
    destruct (IH (if bool_decide (length ph = 5)
                       && bool_decide (w ∈ frequencySet
                            (set_dictionary (<[w := ph]> (dictionary st)) st))
                  then set_wordlist
                         (wordlist (set_dictionary (<[w := ph]> (dictionary st)) st)
                          ++ [w])
                         (set_dictionary (<[w := ph]> (dictionary st)) st)
                  else set_dictionary (<[w := ph]> (dictionary st)) st,
                  foldl setAdd pset ph)) as [Hnd Hmem].
    { simpl. by apply setAdds_NoDup. }
    split; [done|]. intros p. rewrite Hmem. simpl. rewrite setAdds_elem_of.
    split.
    + intros [[?|?]|(w' & ph' & Hin & Hp)]; [by left| |].
      * right. exists w, ph. split; [left|done].
      * right. exists w', ph'. split; [by right|done].
    + intros [?|(w' & ph' & Hin & Hp)]; [by left; left|].
      apply elem_of_cons in Hin as [[= -> ->]|Hin]; [by left; right|].
      right. eauto.
  - destruct (IH acc Hacc) as [Hnd Hmem]. split; [done|done].
Qed.

(** The number of turns that loading needs. *)
Lemma chunk_turns lines linesPerFrame r keys turns index acc :
  0 < linesPerFrame → index < length lines →
  is_Some (processDictionaryChunk lines linesPerFrame r keys turns index acc)
  ↔ length lines - index ≤ turns * linesPerFrame.
Proof.
  intros Hpos. revert index acc.
  induction turns as [|turns IH]; intros index acc Hindex.
  { simpl. split; [by intros [? ?]|lia]. }
  simpl processDictionaryChunk. case_bool_decide as Hend.
  - rewrite IH by lia. lia.
  - split; [intros _; nia|by eexists].
Qed.

Lemma split_lines_nonempty s : 0 < length (Text.split newline s).
Proof.
  unfold Text.split, newline.
  pose proof (splitFrom_nonempty (String "010" "") 0 s) as Hne.
  destruct (Text.splitFrom _ 0 s); simpl; [done|lia].
Qed.

Lemma NoDup_fst_unique {A B} (l : list (A * B)) x y1 y2 :
  NoDup (l.*1) → (x, y1) ∈ l → (x, y2) ∈ l → y1 = y2.
Proof.
  induction l as [|[x0 y0] l IH]; simpl; intros Hnd H1 H2.
  { by apply elem_of_nil in H1. }
  apply NoDup_cons in Hnd as [Hx0 Hl].
  apply elem_of_cons in H1, H2.
  destruct H1 as [H1|H1], H2 as [H2|H2]; simplify_eq; try done.
  - exfalso. apply Hx0. eapply list_elem_of_fmap_2'; [exact H2|done].
  - exfalso. apply Hx0. eapply list_elem_of_fmap_2'; [exact H1|done].
  - by apply IH.
Qed.

(** A round starts when the drawn word is in the list and in the
    lexicon. *)
Lemma startGame_Returns r st w ph :
  wordlist st !! r = Some w → dictionary st !! w = Some ph →
  ∃ st', startGame r st = Returns st'
    ∧ gameState st' = Playing
    ∧ targetWord st' = Some w ∧ targetPhonemes st' = Some ph
    ∧ dictionary st' = dictionary st
    ∧ rowsInOrder st'.
Proof.
  intros Hw Hph. unfold startGame. simpl. rewrite Hw. simpl. rewrite Hph.
  eexists. split; [reflexivity|]. simpl.
  do 4 (split; [done|]).
  unfold rowsInOrder, MAX_GUESSES. simpl.
  split; [lia|]. split; [done|]. split; [by eexists|lia].
Qed.

End loader_more.

(** X13. When loading has finished, the alphabet has no duplicates and
    holds exactly the symbols of the parsed records. *)
Theorem alphabet_distinct_and_exact (dictText : string)
    (linesPerFrame r : nat) (keys : nat → list (string * nat)) (turns : nat)
    (freq : gset string) (out : outcome) :
  loadGameData dictText linesPerFrame r keys turns (initial freq) = Some out →
  NoDup (allPhonemesSorted (stateOf out))
  ∧ ∀ p, p ∈ allPhonemesSorted (stateOf out)
         ↔ ∃ w ph, (w, ph) ∈ records (Text.split newline dictText) ∧ p ∈ ph.
Proof.
  intros Hout. apply loadGameData_finished in Hout. subst out.
  destruct (loadSinglePass_lexicon dictText r (initial freq)) as (_ & _ & ->).
  destruct (processLines_phonemeSet (Text.split newline dictText)
              (initial freq, [])) as [Hnd Hmem]; [constructor|].
  unfold sortStrings.
  split; [by rewrite merge_sort_Permutation|].
  intros p. rewrite merge_sort_Permutation, Hmem. simpl.
  rewrite elem_of_nil. tauto.
Qed.

Lemma alphabet_distinct_and_exact_witness :
  ∃ out,
    loadGameData sampleDictionary 2 0 noKeys 5 (initial ∅) = Some out
    ∧ NoDup (allPhonemesSorted (stateOf out))
    ∧ "IY" ∈ allPhonemesSorted (stateOf out).
Proof.
  assert (∃ o, loadGameData sampleDictionary 2 0 noKeys 5 (initial ∅) = Some o)
    as [o Hrun].
  { vm_compute. by eexists. }
  destruct (alphabet_distinct_and_exact sampleDictionary 2 0 noKeys 5 ∅ o Hrun)
    as (Hnd & Hmem).
  exists o. split; [exact Hrun|]. split; [exact Hnd|].
  apply Hmem. exists "CATSY", ["K"; "AE"; "T"; "S"; "IY"]. split.
  - apply list_elem_of_omap. exists "CATSY  K AE1 T S IY0". split.
    + apply (bool_decide_unpack
               ("CATSY  K AE1 T S IY0" ∈ Text.split newline sampleDictionary)).
      vm_compute. exact I.
    + reflexivity.
  - rewrite !elem_of_cons. tauto.
Defined.

(** X14. With a batch size of at least one line, loading finishes within
    a number of turns exactly when the turns times the batch size cover
    the lines of the dictionary. *)
Theorem loading_needs_enough_turns (dictText : string)
    (linesPerFrame r : nat) (keys : nat → list (string * nat)) (turns : nat)
    (st : state) :
  0 < linesPerFrame →
  is_Some (loadGameData dictText linesPerFrame r keys turns st)
  ↔ length (Text.split newline dictText) ≤ turns * linesPerFrame.
Proof.
  intros Hpos. unfold loadGameData.
  rewrite chunk_turns; [by rewrite Nat.sub_0_r|done|].
  apply split_lines_nonempty.
Qed.

Lemma loading_needs_enough_turns_witness :
  loadGameData sampleDictionary 2 0 noKeys 1 (initial ∅) = None
  ∧ is_Some (loadGameData sampleDictionary 2 0 noKeys 2 (initial ∅)).
Proof.
  split.
  - destruct (loadGameData sampleDictionary 2 0 noKeys 1 (initial ∅)) eqn:Hrun;
      [|reflexivity].
    assert (is_Some (loadGameData sampleDictionary 2 0 noKeys 1 (initial ∅)))
      as Hsome by (rewrite Hrun; by eexists).
    apply (loading_needs_enough_turns sampleDictionary 2 0 noKeys 1 (initial ∅))
      in Hsome; [|lia].
    vm_compute in Hsome. lia.
  - apply (loading_needs_enough_turns sampleDictionary 2 0 noKeys 2 (initial ∅));
      [lia|]. vm_compute. lia.
Defined.

(** X15. When loading has finished and the drawn index is one of the
    candidate list, the first round starts: the target is the drawn word,
    which is in the frequency set, its pronunciation is the lexicon entry
    of the word, the phonemes of the last data line with that spelling,
    and the rows are in order.  When no spelling is on two data lines, the
    target has five phonemes. *)
Theorem load_starts_a_round (dictText : string)
    (linesPerFrame r : nat) (keys : nat → list (string * nat)) (turns : nat)
    (freq : gset string) (out : outcome) (w : string) :
  loadGameData dictText linesPerFrame r keys turns (initial freq) = Some out →
  wordlist (stateOf out) !! r = Some w →
  ∃ st' ph,
    out = Returns st' ∧ gameState st' = Playing
    ∧ targetWord st' = Some w ∧ targetPhonemes st' = Some ph
    ∧ dictionary st' !! w = Some ph
    ∧ w ∈ freq
    ∧ rowsInOrder st'
    ∧ (NoDup ((records (Text.split newline dictText)).*1) → length ph = 5).
Proof.
  intros Hout Hw. apply loadGameData_finished in Hout. subst out.
  destruct (loadSinglePass_lexicon dictText r (initial freq))
    as (_ & Hlist & _).
  rewrite Hlist in Hw. clear Hlist.
  set (lines := Text.split newline dictText) in *.
  pose proof Hw as Hcand. rewrite processLines_wordlist in Hcand.
  simpl in Hcand.
  assert (w ∈ candidates freq (records lines)) as Hin.
  { apply list_elem_of_lookup. eauto. }
  unfold candidates in Hin.
  apply list_elem_of_fmap in Hin as ([w' ph0] & -> & Hin).
  apply list_elem_of_filter in Hin as [[H5 Hfreq] Hrec]. simpl in *.
  assert ((w', ph0) ∈ filter (λ wp : string * list string, wp.1 = w')
                        (records lines)) as Hfirst.
  { by apply list_elem_of_filter. }
  destruct (last (filter (λ wp : string * list string, wp.1 = w')
                         (records lines)))
    as [[w'' ph]|] eqn:Hlast; last first.
  { apply last_None in Hlast. rewrite Hlast in Hfirst.
    by apply elem_of_nil in Hfirst. }
  assert ((w'', ph) ∈ filter (λ wp : string * list string, wp.1 = w')
                        (records lines)) as Hmem.
  { by apply last_Some_elem_of. }
  apply list_elem_of_filter in Hmem as [Hw'' Hmem]. simpl in Hw''. subst w''.
  assert (dictionary (foldl processLine (initial freq, []) lines).1 !! w'
          = Some ph) as Hentry.
  { rewrite processLines_dictionary, foldl_insert_last, Hlast. done. }
  change (loadSinglePass dictText r (initial freq))
    with (startGame r
            (set_allPhonemesSorted
               (sortStrings (foldl processLine (initial freq, []) lines).2)
               (foldl processLine (initial freq, []) lines).1)).
  destruct (startGame_Returns r
              (set_allPhonemesSorted
                 (sortStrings (foldl processLine (initial freq, []) lines).2)
                 (foldl processLine (initial freq, []) lines).1) w' ph Hw Hentry)
    as (st' & Hrun & Hphase & Hword & Htarget & Hdict & Hrows).
  rewrite Hrun. exists st', ph.
  split; [done|]. split; [done|]. split; [done|]. split; [done|].
  split; [by rewrite Hdict|]. split; [done|]. split; [done|].
  intros Hnd. by rewrite (NoDup_fst_unique _ w' ph ph0 Hnd Hmem Hrec).
Qed.

Lemma load_starts_a_round_witness :
  ∃ out st',
    loadGameData sampleDictionary 2 1 noKeys 5 (initial {["CATSY"; "BEETSY"]})
      = Some out
    ∧ out = Returns st' ∧ gameState st' = Playing
    ∧ targetWord st' = Some "BEETSY".
Proof.
  assert (∃ o', loadGameData sampleDictionary 2 1 noKeys 5
                  (initial {["CATSY"; "BEETSY"]}) = Some o') as [o' Hrun].
  { vm_compute. by eexists. }
  destruct (load_starts_a_round sampleDictionary 2 1 noKeys 5
              {["CATSY"; "BEETSY"]} o' "BEETSY" Hrun)
    as (st' & ph & Hout & Hphase & Hword & _).
  - pose proof Hrun as Hrun'. vm_compute in Hrun'. injection Hrun' as <-.
    vm_compute. reflexivity.
  - exists o', st'. split; [exact Hrun|]. split; [exact Hout|]. by split.
Defined.

(** ** The shape of a parsed line *)

Section shape_facts.

Import Text.
Implicit Types (s p sep rest : string) (c : ascii).

Lemma startsWith_inv p s : startsWith p s = true → ∃ rest, s = p +:+ rest.
Proof.
  revert s. induction p as [|a p IH]; intros s; [by exists s|].
  destruct s as [|b s]; [done|]. simpl.
  case_decide as Hab; [|done]. subst b.
  intros (rest & ->)%IH. by exists rest.
Qed.

Lemma length_app_str s1 s2 :
  String.length (s1 +:+ s2) = String.length s1 + String.length s2.
Proof.
  induction s1 as [|c s1 IH]; [done|]. rewrite app_cons. simpl. by rewrite IH.
Qed.

Lemma join_consHead sep c (pieces : list string) :
  pieces ≠ [] → join sep (consHead c pieces) = String c (join sep pieces).
Proof. destruct pieces as [|p [|q ps]]; done. Qed.

Lemma join_empty_head sep (pieces : list string) :
  pieces ≠ [] → join sep ("" :: pieces) = sep +:+ join sep pieces.
Proof. by destruct pieces. Qed.

(** Joining the pieces of a split with the separator gives the text
    back. *)
Lemma join_splitFrom c0 sep s :
  join (String c0 sep) (splitFrom (String c0 sep) 0 s) = s.
Proof.
  remember (String.length s) as n eqn:Hn.
  revert s Hn. induction (lt_wf n) as [n _ IH]. intros s ->.
  destruct s as [|c s]; [done|].
  rewrite splitFrom_0_cons.
  destruct (startsWith (String c0 sep) (String c s)) eqn:Hstart.
  - apply startsWith_inv in Hstart as [rest Hrest].
    rewrite app_cons in Hrest. injection Hrest as -> ->.
    change (String.length (String c0 sep) - 1) with (String.length sep - 0).
    rewrite Nat.sub_0_r, splitFrom_skip.
    rewrite join_empty_head by apply splitFrom_nonempty.
    rewrite (IH (String.length rest)); [done| |done].
    simpl. rewrite length_app_str. lia.
  - rewrite join_consHead by apply splitFrom_nonempty.
    by rewrite (IH (String.length s)); [|simpl; lia|].
Qed.

(** No piece of a split by one character holds that character. *)
Lemma splitFrom_char_free c0 s :
  Forall (λ p, allChars (λ c, negb (bool_decide (c = c0))) p)
         (splitFrom (String c0 "") 0 s).
Proof.
  induction s as [|c s IH]; [by repeat constructor|].
  rewrite splitFrom_0_cons. simpl.
  destruct (decide (c0 = c)) as [->|Hne]; [by constructor|].
  pose proof (splitFrom_nonempty (String c0 "") 0 s) as Hnil.
  destruct (splitFrom (String c0 "") 0 s) as [|p ps]; [done|].
  apply Forall_cons in IH as [Hp Hps]. constructor; [|done].
  simpl. apply andb_True. split; [|done].
  apply negb_True. rewrite bool_decide_spec. congruence.
Qed.

Lemma parseLine_guard line w ph :
  parseLine line = Some (w, ph) →
  line ≠ "" ∧ startsWith ";;;" line = false.
Proof.
  unfold parseLine. destruct line as [|c line]; [done|]. simpl truthy.
  destruct (startsWith ";;;" (String c line)); [done|]. done.
Qed.

End shape_facts.

(** X16. A line from which a record is read is not empty, does not begin
    with the comment marker, and is the stored word, two spaces and a
    rest; the stored phonemes are the pieces of the rest between single
    spaces, digits removed and empty pieces dropped, and none of them is
    empty or holds a digit or a space. *)
Theorem parsed_line_shape (line w : string) (ph : list string) :
  parseLine line = Some (w, ph) →
  ∃ rest,
    line = w +:+ "  " +:+ rest
    ∧ line ≠ ""
    ∧ Text.startsWith ";;;" line = false
    ∧ ph = filter (λ p, Text.truthy p) (Text.split " " (Text.removeDigits rest))
    ∧ Forall (λ p, cleanSymbol p ∧ spaceFree p) ph.
Proof.
  intros Hparse.
  destruct (parseLine_guard line w ph Hparse) as [Hne Hcomment].
  pose proof (parseLine_clean line w ph Hparse) as Hclean.
  apply parseLine_Some in Hparse as (rest & Hsplit & ->).
  exists rest. split.
  { rewrite <-(join_splitFrom " " " " line).
    unfold Text.split in Hsplit. by rewrite Hsplit. }
  split; [done|]. split; [done|]. split; [done|].
  apply Forall_forall. intros p Hp. split.
  - rewrite Forall_forall in Hclean. by apply Hclean.
  - apply list_elem_of_filter in Hp as [_ Hp].
    pose proof (splitFrom_char_free " " (Text.removeDigits rest)) as Hfree.
    rewrite Forall_forall in Hfree. by apply Hfree.
Qed.

Lemma parsed_line_shape_witness :
  ∃ rest, "CAB   K AE1 2 B" = "CAB" +:+ "  " +:+ rest
          ∧ ["K"; "AE"; "B"]
            = filter (λ p, Text.truthy p)
                     (Text.split " " (Text.removeDigits rest)).
Proof.
  destruct (parsed_line_shape "CAB   K AE1 2 B" "CAB" ["K"; "AE"; "B"] eq_refl)
    as (rest & Hline & _ & _ & Hph & _).
  by exists rest.
Defined.

(** ** The frequency set *)

Section frequency_facts.

Variable toUpperCase : string → string.

Lemma loadFrequency_fold (l : list string) (st : state) (w : string) :
  let st' :=
    foldl (λ st word,
             if Text.truthy word
             then set_frequencySet ({[toUpperCase word]} ∪ frequencySet st) st
             else st) st l in
  (w ∈ frequencySet st'
   ↔ w ∈ frequencySet st ∨ ∃ line, line ∈ l ∧ line ≠ "" ∧ toUpperCase line = w)
  ∧ dictionary st' = dictionary st ∧ wordlist st' = wordlist st
  ∧ gameState st' = gameState st.
Proof.
  revert st. induction l as [|word l IH]; intros st; simpl.
  { split; [|done]. split; [auto|]. intros [?|(line & Hin & _)]; [done|].
    by apply elem_of_nil in Hin. }
  destruct (IH (if Text.truthy word
                then set_frequencySet ({[toUpperCase word]} ∪ frequencySet st) st
                else st)) as (Hmem & Hdict & Hlist & Hphase).
  split; [|by destruct word].
  rewrite Hmem. destruct word as [|c word]; simpl.
  - split.
    + intros [?|(line & Hin & ?)]; [by left|]. right. exists line.
      split; [by right|done].
    + intros [?|(line & Hin & Hne & ?)]; [by left|].
      apply elem_of_cons in Hin as [->|Hin]; [done|]. right. eauto.
  - rewrite elem_of_union, elem_of_singleton. split.
    + intros [[->|?]|(line & Hin & ?)].
      * right. exists (String c word). split; [left|done].
      * by left.
      * right. exists line. split; [by right|done].
    + intros [?|(line & Hin & Hne & Hw)]; [by left; right|].
      apply elem_of_cons in Hin as [->|Hin]; [by left; left|]. right. eauto.
Qed.

End frequency_facts.

(** X17. After the frequency list is loaded, the frequency set holds what
    it held before and the upper-case form of every non-empty line of the
    list, and nothing else; the lexicon map, the candidate list and the
    phase are as before. *)
Theorem frequency_set_members (toUpperCase : string → string)
    (freqText : string) (st : state) (w : string) :
  (w ∈ frequencySet (loadFrequency toUpperCase freqText st)
   ↔ w ∈ frequencySet st
     ∨ ∃ line, line ∈ Text.split newline freqText ∧ line ≠ ""
               ∧ toUpperCase line = w)
  ∧ dictionary (loadFrequency toUpperCase freqText st) = dictionary st
  ∧ wordlist (loadFrequency toUpperCase freqText st) = wordlist st
  ∧ gameState (loadFrequency toUpperCase freqText st) = gameState st.
Proof. apply loadFrequency_fold. Qed.

(** ** The keys of the keyboard *)

Section keyboard_facts.

Implicit Types (st : state) (ps : gmap string status) (p : string).

Lemma updateStatus_is_Some G fb ps p :
  is_Some (ps !! p) → is_Some (updateStatus G fb ps !! p).
Proof.
  unfold updateStatus. generalize (seq 0 5). intros l. revert ps.
  induction l as [|i l IH]; intros ps Hp; [done|]. simpl. apply IH.
  destruct (G !! i), (fb !! i); try done. by apply statusStep_is_Some.
Qed.

Lemma submitGuess_keysHaveStatus st :
  keysHaveStatus st → keysHaveStatus (stateOf (submitGuess st)).
Proof.
  intros Hst. unfold submitGuess. case_bool_decide; [done|].
  destruct (dictionary st !! currentGuess st); [|done].
  case_bool_decide; [done|]. simpl.
  destruct (targetPhonemes st); [|done]. simpl.
  unfold keysHaveStatus in *. simpl.
  eapply Forall_impl; [done|]. intros p. apply updateStatus_is_Some.
Qed.

Lemma startGame_keysHaveStatus r st :
  keysHaveStatus st → keysHaveStatus (stateOf (startGame r st)).
Proof.
  intros Hst. unfold startGame. simpl.
  destruct (dictionary st !! propertyKey (wordlist st !! r)); [|done].
  unfold keysHaveStatus. simpl. apply Forall_forall. intros p Hp.
  rewrite fold_default, decide_True by done. by eexists.
Qed.

Lemma handleKeydown_keysHaveStatus key r st :
  keysHaveStatus st → keysHaveStatus (stateOf (handleKeydown key r st)).
Proof.
  intros Hst. unfold handleKeydown.
  case_bool_decide; [by apply startGame_keysHaveStatus|].
  case_bool_decide; [done|].
  case_bool_decide; [by apply submitGuess_keysHaveStatus|].
  case_bool_decide; [done|]. by destruct (Text.isLetterKey key).
Qed.

Lemma checkWinLoss_keysHaveStatus st :
  keysHaveStatus st → keysHaveStatus (stateOf (checkWinLoss st)).
Proof.
  intros Hst. unfold checkWinLoss. destruct (last (guesses st)); [|done].
  destruct (forallb _ _); [done|].
  case_bool_decide; [|done]. by destruct (targetPhonemes st).
Qed.

End keyboard_facts.

(** X18. Once every symbol of the alphabet has an entry in the status
    map, as after a successful [startGame], it keeps one whatever keys are
    pressed and whenever [checkWinLoss] runs: the keyboard never has to
    fall back on the default class for a key without a status. *)
Theorem keyboard_keys_have_status (st st' : state) :
  keysHaveStatus st → rtc gameStep st st' → keysHaveStatus st'.
Proof.
  intros Hst Hsteps. induction Hsteps as [|st1 st2 st3 Hstep _ IH]; [done|].
  apply IH. destruct Hstep as [key r st1|st1 _].
  - by apply handleKeydown_keysHaveStatus.
  - by apply checkWinLoss_keysHaveStatus.
Qed.

Lemma keyboard_keys_have_status_witness :
  let st := set_allPhonemesSorted ["AE"; "K"] sampleRound in
  is_Some (phonemeStatus (stateOf (handleKeydown "Enter" 0 st)) !! "AE").
Proof.
  intros st.
  assert (keysHaveStatus st) as Hst.
  { unfold keysHaveStatus. simpl. repeat constructor; vm_compute; by eexists. }
  pose proof (keyboard_keys_have_status st
                (stateOf (handleKeydown "Enter" 0 st)) Hst
                (rtc_once _ _ (game_keydown "Enter" 0 st))) as Hkeys.
  unfold keysHaveStatus in Hkeys.
  by apply Forall_cons in Hkeys as [HAE _].
Defined.

(** X19. While playing, Enter and Backspace on an empty input buffer
    change nothing. *)
Theorem empty_buffer_keys_do_nothing (st : state) (r : nat) :
  gameState st = Playing → currentGuess st = "" →
  handleKeydown "Enter" r st = Returns st
  ∧ handleKeydown "Backspace" r st = Returns st.
Proof.
  intros Hphase Hempty. split.
  - rewrite handleKeydown_enter by done. unfold submitGuess.
    by rewrite Hempty.
  - rewrite handleKeydown_backspace by done. rewrite Hempty.
    destruct st. simpl in *. by subst.
Qed.

Lemma empty_buffer_keys_do_nothing_witness :
  handleKeydown "Enter" 0 (set_currentGuess "" sampleRound)
  = Returns (set_currentGuess "" sampleRound).
Proof.
  apply (empty_buffer_keys_do_nothing (set_currentGuess "" sampleRound) 0);
    reflexivity.
Defined.
